(** * pipelib: the path generator of the "Pipe Dream" helper library

    A shallow embedding of [src/pipelib/pipelib.py] (the functions behind
    [generate_paths]) and the properties of it that the specification
    states.

    Conventions of the embedding.
    - A cell is a pair of Python ints, here [Z * Z].
    - Dictionaries ([adj], [strandi]) are [gmap]s, Python lists are lists,
      the [deque] of [cleanse] is a list with its front at the head.
    - The [random.Random] object is a state [G] that is passed along
      explicitly; its one primitive is [randbelow], and [randrange],
      [randint], [choice] and [shuffle] are written over it the way
      CPython's [random.py] writes them.
    - A Python exception is a [Raise]; the [while] loops take a fuel
      argument and answer [OutOfFuel] when it runs out. *)

From stdpp Require Import base numbers option list sorting gmap.

Open Scope Z_scope.

(** ** Results of partial computations *)

Inductive exn : Set := ValueError | IndexError | KeyError | AssertionError.

Inductive result (A : Type) : Type :=
  | Ok (a : A)
  | Raise (e : exn)
  | OutOfFuel.
Arguments Ok {A} a.
Arguments Raise {A} e.
Arguments OutOfFuel {A}.

#[global] Instance result_ret : MRet result := λ A a, Ok a.
#[global] Instance result_bind : MBind result := λ A B f m,
  match m with
  | Ok a => f a
  | Raise e => Raise e
  | OutOfFuel => OutOfFuel
  end.
#[global] Instance result_fmap : FMap result := λ A B f m,
  match m with
  | Ok a => Ok (f a)
  | Raise e => Raise e
  | OutOfFuel => OutOfFuel
  end.

(** [d[k]] on a dictionary and [l[i]] on a list, for [i >= 0]. *)
Definition getitem {A} (o : option A) (e : exn) : result A :=
  match o with
  | Some a => Ok a
  | None => Raise e
  end.

(** ** The random source *)

Class Random (G : Type) := {
  randbelow : nat → G → nat * G;
  randbelow_lt : ∀ n g, (0 < n)%nat → ((randbelow n g).1 < n)%nat
}.

(** A source that replays a tape of raw draws; each draw is reduced modulo
    the requested bound. *)
#[global] Program Instance tape_random : Random (list nat) := {|
  randbelow n g := ((hd 0%nat g) mod n, tl g)%nat
|}.
Next Obligation. intros n g Hn. simpl. apply Nat.mod_upper_bound. lia. Qed.

Section random.
Context {G : Type} `{!Random G}.

(** [Random.randrange(n)] *)
Definition randrange (n : nat) (g : G) : result (nat * G) :=
  if decide (0 < n)%nat then Ok (randbelow n g) else Raise ValueError.

(** [Random.randint(a, b)], that is [randrange(a, b + 1)] *)
Definition randint (a b : Z) (g : G) : result (Z * G) :=
  if decide (0 < b + 1 - a) then
    let '(k, g) := randbelow (Z.to_nat (b + 1 - a)) g in
    Ok (a + Z.of_nat k, g)
  else Raise ValueError.

(** [Random.choice(seq)] *)
Definition choice {A} (l : list A) (g : G) : result (A * G) :=
  match l with
  | [] => Raise IndexError
  | _ => let '(i, g) := randbelow (length l) g in
         x ← getitem (l !! i) IndexError; Ok (x, g)
  end.

(** [x[i], x[j] = x[j], x[i]] *)
Definition swap {A} (i j : nat) (l : list A) : list A :=
  match l !! i, l !! j with
  | Some a, Some b => <[j := a]> (<[i := b]> l)
  | _, _ => l
  end.

(** [Random.shuffle(x)]: [for i in reversed(range(1, len(x)))] *)
Fixpoint shuffle_down {A} (i : nat) (l : list A) (g : G) : list A * G :=
  match i with
  | O => (l, g)
  | S i' => let '(j, g) := randbelow (S i) g in
            shuffle_down i' (swap i j l) g
  end.

Definition shuffle {A} (l : list A) (g : G) : list A * G :=
  shuffle_down (length l - 1) l g.

(** [shuffled(rand, seq)] *)
Definition shuffled {A} (l : list A) (g : G) : list A * G := shuffle l g.

(** [randpop(rand, seq)]: the popped element and what is left of [seq] *)
Definition randpop {A} (l : list A) (g : G) : result (A * list A * G) :=
  match l with
  | [] => Raise ValueError
  | _ =>
    '(idx, g) ← randrange (length l) g;
    x ← getitem (l !! idx) IndexError;
    Ok (x, removelast (swap idx (length l - 1) l), g)
  end.
End random.

(** ** Settings and the grid *)

Definition cell : Type := Z * Z.

Record DifficultySettings := mkSettings {
  r : Z;
  c : Z;
  endcl : Z;
  pathl : Z;
  distl : Z;
  attemptc : Z
}.

Definition DIJS : list (Z * Z) := [(-1, 0); (0, 1); (1, 0); (0, -1)].

Definition dist (i1 j1 i2 j2 : Z) : Z := Z.abs (i1 - i2) + Z.abs (j1 - j2).

(** [range(n)] *)
Definition range (n : Z) : list Z := seqZ 0 n.

(** [(i, j) for i in range(r) for j in range(c)] *)
Definition grid (s : DifficultySettings) : list cell :=
  i ← range (r s); j ← range (c s); [(i, j)].

(** [seq[:k]] and [islice(seq, k)] *)
Definition slice_to {A} (k : Z) (l : list A) : list A :=
  if decide (0 ≤ k) then take (Z.to_nat k) l
  else take (length l - Z.to_nat (- k)) l.

Definition islice_check (k : Z) : result nat :=
  if decide (0 ≤ k) then Ok (Z.to_nat k) else Raise ValueError.

Definition islice {A} (l : list A) (k : Z) : result (list A) :=
  n ← islice_check k; Ok (take n l).

(** ** The strand builder *)

Record builder := Builder {
  adj : gmap cell (list cell);
  strands : list (list cell);
  strandi : gmap cell nat
}.

(** [adj = {(i, j): [] ...}; strands = []; strandi = {}] *)
Definition init (s : DifficultySettings) : builder :=
  {| adj := list_to_map ((λ x, (x, [])) <$> grid s);
     strands := [];
     strandi := ∅ |}.

(** [strandi[i, j] = len(strands); strands.append([(i, j)])] *)
Definition plant (st : builder) (x : cell) : builder :=
  {| adj := adj st;
     strands := strands st ++ [[x]];
     strandi := <[x := length (strands st)]> (strandi st) |}.

Definition good_neighbors (s : DifficultySettings) (st : builder) (x : cell)
    : list cell :=
  filter (λ n, 0 ≤ n.1 < r s ∧ 0 ≤ n.2 < c s ∧ strandi st !! n = None)
         ((λ d, (x.1 + d.1, x.2 + d.2)) <$> DIJS).

(** The four statements under [# attach now]. *)
Definition attach (st : builder) (x n : cell) : result builder :=
  ax ← getitem (adj st !! x) KeyError;
  let adj1 := <[x := ax ++ [n]]> (adj st) in
  an ← getitem (adj1 !! n) KeyError;
  let adj2 := <[n := an ++ [x]]> adj1 in
  k ← getitem (strandi st !! x) KeyError;
  let strandi' := <[n := k]> (strandi st) in
  strand ← getitem (strands st !! k) IndexError;
  Ok {| adj := adj2;
        strands := <[k := strand ++ [n]]> (strands st);
        strandi := strandi' |}.

Section builder.
Context {G : Type} `{!Random G}.

(** One turn of [while seeds:]. *)
Definition grow_step (s : DifficultySettings) (st : builder)
    (seeds : list cell) (g : G) : result (builder * list cell * G) :=
  '(x, seeds, g) ← randpop seeds g;
  if decide (is_Some (strandi st !! x)) then
    match good_neighbors s st x with
    | [] => Ok (st, seeds, g)
    | neighs =>
      '(n, g) ← choice neighs g;
      st ← attach st x n;
      Ok (st, seeds ++ [n], g)
    end
  else Raise AssertionError.

Fixpoint grow (fuel : nat) (s : DifficultySettings) (st : builder)
    (seeds : list cell) (g : G) : result (builder * G) :=
  match seeds with
  | [] => Ok (st, g)
  | _ =>
    match fuel with
    | O => OutOfFuel
    | S fuel =>
      '(st, seeds, g) ← grow_step s st seeds g;
      grow fuel s st seeds g
    end
  end.

(** [strands = [strand for strand in strands if len(strand) > 1]] *)
Definition prune (st : builder) : builder :=
  {| adj := adj st;
     strands := filter (λ strand, (1 < length strand)%nat) (strands st);
     strandi := strandi st |}.

(** One turn of [while len(strandi) < r * c:]. *)
Definition round (fuel : nat) (s : DifficultySettings) (st : builder)
    (g : G) : result (builder * G) :=
  let '(seeds, g) :=
    shuffled (filter (λ x, strandi st !! x = None) (grid s)) g in
  let seeds := slice_to (endcl s) seeds in
  let st := foldl plant st seeds in
  '(st, g) ← grow fuel s st (seeds ++ seeds) g;
  Ok (prune st, g).

Fixpoint build (fuel : nat) (s : DifficultySettings) (st : builder)
    (g : G) : result (builder * G) :=
  if decide (Z.of_nat (size (strandi st)) < r s * c s) then
    match fuel with
    | O => OutOfFuel
    | S fuel =>
      '(st, g) ← round fuel s st g;
      build fuel s st g
    end
  else Ok (st, g).
End builder.

(** ** The path extractor *)

(** [seq[-k]] for [k >= 1] *)
Definition from_end {A} (k : nat) (l : list A) : option A :=
  if decide (k ≤ length l)%nat then l !! (length l - k)%nat else None.

(** [[cell for cell in strand if len(adj[cell]) == 1]] *)
Fixpoint ends (adj : gmap cell (list cell)) (strand : list cell)
    : result (list cell) :=
  match strand with
  | [] => Ok []
  | x :: strand =>
    ax ← getitem (adj !! x) KeyError;
    es ← ends adj strand;
    Ok (if decide (length ax = 1%nat) then x :: es else es)
  end.

(** [while seq[-1] != ecell: [ccell] = {*adj[seq[-1]]} - {seq[-2]}; ...] *)
Fixpoint walk (fuel : nat) (adj : gmap cell (list cell)) (ecell : cell)
    (seq : list cell) : result (list cell) :=
  cur ← getitem (from_end 1 seq) IndexError;
  if decide (cur ≠ ecell) then
    match fuel with
    | O => OutOfFuel
    | S fuel =>
      acur ← getitem (adj !! cur) KeyError;
      prev ← getitem (from_end 2 seq) IndexError;
      match elements ((list_to_set acur : gset cell) ∖ {[prev]}) with
      | [ccell] => walk fuel adj ecell (seq ++ [ccell])
      | _ => Raise ValueError
      end
    end
  else Ok seq.

Definition popleft {A} (l : list A) : result (list A) :=
  match l with
  | [] => Raise IndexError
  | _ :: l => Ok l
  end.

Definition pop {A} (l : list A) : result (list A) :=
  match l with
  | [] => Raise IndexError
  | _ => Ok (removelast l)
  end.

(** [strands.sort(key=len, reverse=True)]: a stable sort, longest first. *)
Fixpoint insert_desc {A} (x : list A) (l : list (list A)) : list (list A) :=
  match l with
  | [] => [x]
  | y :: l' =>
    if decide (length x < length y)%nat then y :: insert_desc x l'
    else x :: l
  end.

Definition sort_desc {A} (l : list (list A)) : list (list A) :=
  foldr insert_desc [] l.

Section extractor.
Context {G : Type} `{!Random G}.

(** [for _ in range(ct): if rand.randrange(2): popleft() else: pop()] *)
Fixpoint trim (ct : nat) (seq : list cell) (g : G)
    : result (list cell * G) :=
  match ct with
  | O => Ok (seq, g)
  | S ct =>
    '(b, g) ← randrange 2 g;
    seq ← (if decide (b ≠ 0%nat) then popleft seq else pop seq);
    trim ct seq g
  end.

(** [ct = min(len(seq) - settings.distl, 2)] and
    [if ct > 0: ct = rand.randint(0, ct)] *)
Definition trim_bound (s : DifficultySettings) (seq : list cell) : Z :=
  Z.min (Z.of_nat (length seq) - distl s) 2.

Definition trim_count (s : DifficultySettings) (seq : list cell) (g : G)
    : result (Z * G) :=
  let ct := trim_bound s seq in
  if decide (0 < ct) then randint 0 ct g else Ok (ct, g).

Definition cleanse (fuel : nat) (s : DifficultySettings)
    (adj : gmap cell (list cell)) (strand : list cell) (g : G)
    : result (list cell * G) :=
  es ← ends adj strand;
  match es with
  | [scell; ecell] =>
    seq ← walk fuel adj ecell [scell; scell];
    '(ct, g) ← trim_count s seq g;
    '(seq, g) ← trim (Z.to_nat ct) seq g;
    seq ← popleft seq;
    Ok (seq, g)
  | _ => Raise ValueError
  end.

(** [list(cleanse(strand) for strand in ...)] *)
Fixpoint cleanse_all (fuel : nat) (s : DifficultySettings)
    (adj : gmap cell (list cell)) (sel : list (list cell)) (g : G)
    : result (list (list cell) * G) :=
  match sel with
  | [] => Ok ([], g)
  | strand :: sel =>
    '(path, g) ← cleanse fuel s adj strand g;
    '(paths, g) ← cleanse_all fuel s adj sel g;
    Ok (path :: paths, g)
  end.

Definition _try_generating_paths (fuel : nat) (s : DifficultySettings)
    (g : G) : result (list (list cell) * G) :=
  '(st, g) ← build fuel s (init s) g;
  let '(shuffled_strands, g) := shuffle (strands st) g in
  let sorted := sort_desc shuffled_strands in
  sel ← islice sorted (endcl s);
  '(paths, g) ← cleanse_all fuel s (adj st) sel g;
  Ok (shuffled paths g).
End extractor.

(** ** The attempt evaluator *)

(** [len(path) >= settings.pathl and dist(..) >= settings.distl], where
    [dist] is applied to the coordinates of [path[0]] and [path[-1]] *)
Definition path_ok (s : DifficultySettings) (path : list cell) : result bool :=
  if decide (pathl s ≤ Z.of_nat (length path)) then
    a ← getitem (head path) IndexError;
    b ← getitem (last path) IndexError;
    Ok (bool_decide (distl s ≤ dist a.1 a.2 b.1 b.2))
  else Ok false.

(** [all(... for path in paths)] stops at the first [False]. *)
Fixpoint _acceptable (s : DifficultySettings) (paths : list (list cell))
    : result bool :=
  match paths with
  | [] => Ok true
  | path :: paths =>
    b ← path_ok s path;
    if b : bool then _acceptable s paths else Ok false
  end.

(** The float operations that [_quality] and [max] use.  The order laws
    are those of [>] on floats other than NaN. *)
Class Float (F : Type) := {
  float_zero : F;
  float_add : F → F → F;
  float_pow15 : nat → F;
  float_gt : F → F → bool;
  float_gt_irrefl : ∀ a, float_gt a a = false;
  float_gt_trans : ∀ a b d,
    float_gt a b = true → float_gt b d = true → float_gt a d = true;
  float_gt_cotrans : ∀ a b d,
    float_gt a b = false → float_gt b d = false → float_gt a d = false
}.

(** Scores in fixed point, (n ** 1.5) scaled by 2 ** 20 and rounded down. *)
#[global] Program Instance fixed_float : Float Z := {|
  float_zero := 0;
  float_add := Z.add;
  float_pow15 n := Z.sqrt (Z.of_nat n ^ 3 * 2 ^ 40);
  float_gt a b := bool_decide (b < a)
|}.
Next Obligation. intros a. apply bool_decide_eq_false. lia. Qed.
Next Obligation.
  intros a b d. rewrite !bool_decide_eq_true. lia.
Qed.
Next Obligation.
  intros a b d. rewrite !bool_decide_eq_false. lia.
Qed.

Section search.
Context {G : Type} `{!Random G} {F : Type} `{!Float F}.

(** [sum(len(path)**1.5 for path in paths)] *)
Definition _quality (paths : list (list cell)) : F :=
  foldl (λ acc path, float_add acc (float_pow15 (length path)))
        float_zero paths.

(** [max(iterable, key=key)]: a later item replaces the current one only
    when its key is strictly greater. *)
Definition max_from {A} (key : A → F) (best : A) (l : list A) : A :=
  foldl (λ best item, if float_gt (key item) (key best) then item else best)
        best l.

Definition max_by {A} (key : A → F) (l : list A) : result A :=
  match l with
  | [] => Raise ValueError
  | x :: l => Ok (max_from key x l)
  end.

(** [_generate_acceptable_paths]: the run up to the next [yield]. *)
Fixpoint next_acceptable (fuel : nat) (s : DifficultySettings) (g : G)
    : result (list (list cell) * G) :=
  match fuel with
  | O => OutOfFuel
  | S fuel =>
    '(paths, g) ← _try_generating_paths fuel s g;
    ok ← _acceptable s paths;
    if ok : bool then Ok (paths, g) else next_acceptable fuel s g
  end.

(** The first [n] items of the generator. *)
Fixpoint take_acceptable (n : nat) (fuel : nat) (s : DifficultySettings)
    (g : G) : result (list (list (list cell)) * G) :=
  match n with
  | O => Ok ([], g)
  | S n =>
    '(paths, g) ← next_acceptable fuel s g;
    '(rest, g) ← take_acceptable n fuel s g;
    Ok (paths :: rest, g)
  end.

Definition generate_paths (fuel : nat) (s : DifficultySettings) (g : G)
    : result (list (list cell) * G) :=
  atts ← islice_check (attemptc s);
  '(atts, g) ← take_acceptable atts fuel s g;
  best ← max_by _quality atts;
  Ok (best, g).
End search.

(** * The vocabulary of the properties *)

(** [y] is one cardinal step away from [x]. *)
Definition cardinal (x y : cell) : Prop := (y.1 - x.1, y.2 - x.2) ∈ DIJS.

(** The neighbours of a cell in a path, given what precedes and what
    follows it. *)
Definition nbrs (l1 l2 : list cell) : list cell :=
  option_list (last l1) ++ option_list (head l2).

(** The adjacency lists of the cells of [p] are those of the path graph
    that visits [p] in order. *)
Definition path_graph (adj : gmap cell (list cell)) (p : list cell) : Prop :=
  NoDup p ∧
  ∀ l1 x l2, p = l1 ++ x :: l2 →
    ∃ nb, adj !! x = Some nb ∧ nb ≡ₚ nbrs l1 l2.

(** Number of times [x] occurs in [l]. *)
Definition occ (x : cell) (l : list cell) : nat := length (filter (x =.) l).

Definition free (s : DifficultySettings) (m : gmap cell nat) : list cell :=
  filter (λ x, m !! x = None) (grid s).

(** [old] is the strand-index mapping as it was when the current round
    began, [seeds] is the frontier. *)
Record inv (s : DifficultySettings) (old : gmap cell nat) (st : builder)
    (seeds : list cell) : Prop := Inv {
  inv_adj_dom : ∀ x, is_Some (adj st !! x) ↔ x ∈ grid s;
  inv_edges : ∀ x nb y, adj st !! x = Some nb → y ∈ nb → cardinal x y;
  inv_strandi_dom : ∀ x, is_Some (strandi st !! x) → x ∈ grid s;
  inv_free : ∀ x, x ∈ grid s → strandi st !! x = None → adj st !! x = Some [];
  inv_strands : ∀ strand, strand ∈ strands st →
    strand ≠ [] ∧
    (∃ p, p ≡ₚ strand ∧ path_graph (adj st) p) ∧
    (∀ x, x ∈ strand → is_Some (strandi st !! x));
  inv_disjoint : NoDup (concat (strands st));
  inv_old : old ⊆ strandi st;
  inv_new : ∀ x k, strandi st !! x = Some k → old !! x = None →
    ∃ strand, strands st !! k = Some strand ∧ x ∈ strand;
  inv_seeds : ∀ x, x ∈ seeds →
    old !! x = None ∧ is_Some (strandi st !! x) ∧
    ∃ nb, adj st !! x = Some nb ∧ (occ x seeds + length nb ≤ 2)%nat
}.

(** A state between two rounds: the frontier is empty, and every strand
    that is kept has at least two cells. *)
Definition settled (s : DifficultySettings) (st : builder) : Prop :=
  inv s (strandi st) st [] ∧
  Forall (λ strand, (1 < length strand)%nat) (strands st).

(** [path] is a run of consecutive cells of [q]. *)
Definition segment (path q : list cell) : Prop :=
  ∃ l1 l2, q = l1 ++ path ++ l2.

Definition degree (adj : gmap cell (list cell)) (x : cell) : nat :=
  length (default [] (adj !! x)).

(** What [cleanse] makes of a strand of the builder. *)
Definition cleansed (adj : gmap cell (list cell)) (path strand : list cell)
    : Prop :=
  ∃ q, q ≡ₚ strand ∧ path_graph adj q ∧ segment path q.

Definition longer {A} (a b : list A) : Prop := (length b ≤ length a)%nat.

(** A path passes the two tests of [_acceptable]. *)
Definition path_accepted (s : DifficultySettings) (path : list cell) : Prop :=
  pathl s ≤ Z.of_nat (length path) ∧
  ∃ a b, head path = Some a ∧ last path = Some b ∧
         distl s ≤ dist a.1 a.2 b.1 b.2.

(** Between two rounds, or inside a round with the strand-index mapping
    the round started from and the current frontier. *)
Inductive phase : Type :=
  | Between
  | Growing (old : gmap cell nat) (seeds : list cell).

Section vocabulary.
Context {G : Type} `{!Random G} {F : Type} `{!Float F}.

(** [best] is the first item of [l] whose key is greatest. *)
Definition first_max {A} (key : A → F) (l : list A) (best : A) : Prop :=
  ∃ i, l !! i = Some best ∧
    (∀ j a, l !! j = Some a → float_gt (key a) (key best) = false) ∧
    (∀ j a, (j < i)%nat → l !! j = Some a →
            float_gt (key best) (key a) = true).

(** The acceptable attempts that are collected, following the words of
    the specification: attempts are generated one after the other from
    the same random source, a rejected one is dropped and does not
    count, and the collection ends with the [n]-th acceptable one. *)
Inductive collects (s : DifficultySettings)
    : nat → G → list (list (list cell)) → G → Prop :=
  | collects_done g : collects s 0 g [] g
  | collects_accept n fuel g paths g1 atts g2 :
      _try_generating_paths fuel s g = Ok (paths, g1) →
      _acceptable s paths = Ok true →
      collects s n g1 atts g2 →
      collects s (S n) g (paths :: atts) g2
  | collects_reject n fuel g paths g1 atts g2 :
      _try_generating_paths fuel s g = Ok (paths, g1) →
      _acceptable s paths = Ok false →
      collects s (S n) g1 atts g2 →
      collects s (S n) g atts g2.

Inductive step (s : DifficultySettings)
    : builder * phase → builder * phase → Prop :=
  | step_seed st g l g1 :
      Z.of_nat (size (strandi st)) < r s * c s →
      shuffled (filter (λ x, strandi st !! x = None) (grid s)) g = (l, g1) →
      step s (st, Between)
        (foldl plant st (slice_to (endcl s) l),
         Growing (strandi st)
                 (slice_to (endcl s) l ++ slice_to (endcl s) l))
  | step_grow st old seeds g st' seeds' g' :
      grow_step s st seeds g = Ok (st', seeds', g') →
      step s (st, Growing old seeds) (st', Growing old seeds')
  | step_prune st old :
      step s (st, Growing old []) (prune st, Between).

Definition state_inv (s : DifficultySettings) (x : builder * phase) : Prop :=
  match x.2 with
  | Between => settled s x.1
  | Growing old seeds => inv s old x.1 seeds
  end.
End vocabulary.

(** The length of the result of [cleanse] in the words of the
    specification: a trim amount within the bound
    [min(L - distl, 2)], and one more cell removed. *)
Definition cleanse_length_as_specified (s : DifficultySettings)
    (strand path : list cell) : Prop :=
  ∃ t, 0 ≤ t ≤ Z.max 0 (Z.min (Z.of_nat (length strand) - distl s) 2) ∧
       Z.of_nat (length path) = Z.of_nat (length strand) - t - 1.

(** The strand-index mapping in the words of the specification: the
    stored value is the position, in the current list of strands, of the
    strand that holds the cell. *)
Definition index_of_owner (st : builder) : Prop :=
  ∀ x k, strandi st !! x = Some k →
    ∃ strand, strands st !! k = Some strand ∧ x ∈ strand.

(** Settings and inputs of the examples. *)
Definition trivial : DifficultySettings := mkSettings 4 6 4 1 1 2.

Definition row3 : DifficultySettings := mkSettings 1 3 2 1 1 1.

Definition trivial_paths : list (list cell) :=
  [[(0, 4); (0, 5); (1, 5); (2, 5); (3, 5); (3, 4); (3, 3); (3, 2); (3, 1);
    (3, 0)];
   [(0, 1); (1, 1); (1, 2); (1, 3); (1, 4); (2, 4); (2, 3); (2, 2); (2, 1);
    (2, 0); (1, 0); (0, 0)]].

(** Two cells joined by one edge. *)
Definition pair_adj : gmap cell (list cell) :=
  <[(0, 1) := [(0, 0)]]> (<[(0, 0) := [(0, 1)]]> ∅).

Definition pair_strand : list cell := [(0, 0); (0, 1)].

(** The state in which the builder ends on the one-row grid, with a tape
    that makes the first seed a strand of one cell. *)
Definition row3_tape : list nat := [1; 1; 1]%nat.

Definition row3_final : builder :=
  Eval vm_compute in
    match build 7 row3 (init row3) row3_tape with
    | Ok (st, _) => st
    | _ => init row3
    end.

Definition row3_seeds : list cell :=
  Eval vm_compute in
    slice_to (endcl row3)
      (shuffled (filter (λ x, strandi (init row3) !! x = None) (grid row3))
         row3_tape).1.

Definition row3_seeded : builder :=
  Eval vm_compute in foldl plant (init row3) row3_seeds.

Definition row3_grown : builder :=
  Eval vm_compute in
    match grow 6 row3 row3_seeded (row3_seeds ++ row3_seeds) [1%nat] with
    | Ok (st, _) => st
    | _ => init row3
    end.

(** ** The pipe renderer *)

Definition DIM : Z := 16.
Definition TILEMAP_PIPE : Z := 0.
Definition COLOR_BG_PIPE : Z := 0.

(** [seq2[1:]] followed by [seq2[:1]] *)
Definition rotate_left {T} (seq : list T) : list T := drop 1 seq ++ take 1 seq.

(** [_ccw(seq1, seq2)]: the fuel bounds the depth of the recursion. *)
Fixpoint _ccw {T} `{EqDecision T} (fuel : nat) (seq1 seq2 : list T)
    : result nat :=
  if decide (seq1 = seq2) then Ok 0%nat
  else
    match fuel with
    | O => OutOfFuel
    | S fuel => k ← _ccw fuel seq1 (rotate_left seq2); Ok (1 + k)%nat
    end.

(** The two module-level dictionaries, keyed by the flags
    [(north, east, south, west)]. *)
Record tables := Tables {
  _xoff : gmap (list bool) Z;
  _xstart : gmap (list bool) (list bool)
}.

(** The list of pairs [(xo, xb)] that the module-level loop goes through. *)
Definition sprites : list (Z * list bool) :=
  [(0, [false; false; false; false]);
   (2, [true; false; false; false]);
   (3, [true; true; false; false]);
   (4, [true; false; true; false]);
   (5, [true; true; true; false]);
   (6, [true; true; true; true])].

(** [xc0, xc1, xc2, xc3 = xc] *)
Definition unpack4 {T} (xc : list T) : result (T * T * T * T) :=
  match xc with
  | [x0; x1; x2; x3] => Ok (x0, x1, x2, x3)
  | _ => Raise ValueError
  end.

(** [while xc not in _xoff: ...], where [xc] is the tuple of the four
    names [xc0, xc1, xc2, xc3]. *)
Fixpoint fill (fuel : nat) (xo : Z) (xb : list bool) (xc0 xc1 xc2 xc3 : bool)
    (t : tables) : result tables :=
  let xc := [xc0; xc1; xc2; xc3] in
  if decide (_xoff t !! xc = None) then
    match fuel with
    | O => OutOfFuel
    | S fuel =>
      fill fuel xo xb xc3 xc0 xc1 xc2
        {| _xoff := <[xc := xo]> (_xoff t);
           _xstart := <[xc := xb]> (_xstart t) |}
    end
  else Ok t.

(** [for xo, xb in [...]: xc0, xc1, xc2, xc3 = xc = xb; while ...] *)
Fixpoint fill_all (fuel : nat) (entries : list (Z * list bool)) (t : tables)
    : result tables :=
  match entries with
  | [] => Ok t
  | (xo, xb) :: entries =>
    '(xc0, xc1, xc2, xc3) ← unpack4 xb;
    t ← fill fuel xo xb xc0 xc1 xc2 xc3 t;
    fill_all fuel entries t
  end.

Definition make_tables (fuel : nat) : result tables :=
  fill_all fuel sprites {| _xoff := ∅; _xstart := ∅ |}.

(** The calls into the game engine that [draw_pipe] makes. *)
Inductive pyxel_call : Type :=
  | Pal_reset
  | Pal (col1 col2 : Z)
  | Blt (x y img u v w h : Z) (colkey : option Z).

(** [north + south + east + west] *)
Definition openings (north south east west : bool) : Z :=
  Z.b2z north + Z.b2z south + Z.b2z east + Z.b2z west.

(** The column [tx] and the row [ty] of the sprite in the tile map. *)
Definition pipe_tile (fuel : nat) (t : tables) (base : bool)
    (dirs : list bool) : result (Z * Z) :=
  tx ← (if base then Ok 1 else getitem (_xoff t !! dirs) KeyError);
  xs ← getitem (_xstart t !! dirs) KeyError;
  ty ← _ccw fuel xs dirs;
  Ok (tx, Z.of_nat ty).

(** [draw_pipe]: the calls made, in order, and how the function ends. *)
Definition draw_pipe (fuel : nat) (t : tables) (x y : Z)
    (active north south east west base bg : bool)
    : list pyxel_call * result unit :=
  let calls :=
    Pal_reset :: (if active then [Pal 5 3; Pal 6 7; Pal 12 11] else []) in
  if base && negb (bool_decide (openings north south east west = 1)) then
    (calls, Raise ValueError)
  else
    match pipe_tile fuel t base [north; east; south; west] with
    | Ok (tx, ty) =>
      (calls ++
         [Blt x y TILEMAP_PIPE (DIM * tx) (DIM * ty) DIM DIM
              (if bg then None else Some COLOR_BG_PIPE);
          Pal_reset],
       Ok ())
    | Raise e => (calls, Raise e)
    | OutOfFuel => (calls, OutOfFuel)
    end.

(** The dictionaries as the module-level loop leaves them. *)
Definition pipe_tables : tables :=
  Eval vm_compute in
    match make_tables 4 with
    | Ok t => t
    | _ => {| _xoff := ∅; _xstart := ∅ |}
    end.

(** The sprite column by the number of openings: none, one, two in a
    corner, two in a line, three, four. *)
Definition column_of (north east south west : bool) : Z :=
  match openings north south east west with
  | 0 => 0
  | 1 => 2
  | 2 => if bool_decide (north = south) then 4 else 3
  | 3 => 5
  | _ => 6
  end.

(** A grid with cells and no seeds, and a grid of negative sides. *)
Definition seedless : DifficultySettings := mkSettings 1 3 0 1 1 1.

(** Settings that ask for no attempt. *)
Definition no_attempts : DifficultySettings := mkSettings 4 6 4 1 1 0.

(** Every edge of [adj] is there in both directions. *)
Definition adj_symmetric (adj : gmap cell (list cell)) : Prop :=
  ∀ x y nx, adj !! x = Some nx → y ∈ nx →
    ∃ ny, adj !! y = Some ny ∧ x ∈ ny.

(** * Properties *)

(** ** The result monad *)

Lemma bind_Ok {A B} (m : result A) (f : A → result B) b :
  m ≫= f = Ok b ↔ ∃ a, m = Ok a ∧ f a = Ok b.
Proof.
  destruct m; simpl; split; try (intros [? [? ?]]); try done; eauto.
  by simplify_eq.
Qed.

Lemma getitem_Ok {A} (o : option A) e a : getitem o e = Ok a ↔ o = Some a.
Proof. destruct o; simpl; split; congruence. Qed.

(** Breaks an equation [... = Ok _] over a chain of binds into its steps. *)
Ltac inv_ok :=
  repeat match goal with
  | H : _ ≫= _ = Ok _ |- _ => apply bind_Ok in H as [? [? H]]
  | H : getitem _ _ = Ok _ |- _ => apply getitem_Ok in H
  | H : mret _ = Ok _ |- _ => injection H as H
  | H : Ok _ = Ok _ |- _ => injection H as H
  | H : Raise _ = Ok _ |- _ => discriminate H
  | H : OutOfFuel = Ok _ |- _ => discriminate H
  | x : (_ * _)%type |- _ => destruct x
  end; simpl in *.

(** ** The operations on the random source *)

Section random_facts.
Context {G : Type} `{!Random G}.

Lemma length_swap {A} i j (l : list A) : length (swap i j l) = length l.
Proof.
  unfold swap. destruct (l !! i), (l !! j); auto.
  by rewrite !length_insert.
Qed.

Lemma swap_lookup_r {A} i j (l : list A) a :
  l !! i = Some a → (j < length l)%nat → swap i j l !! j = Some a.
Proof.
  intros Hi Hj. unfold swap. rewrite Hi.
  destruct (lookup_lt_is_Some_2 l j Hj) as [b Hb]. rewrite Hb.
  apply list_lookup_insert_eq. by rewrite length_insert.
Qed.

Lemma swap_perm {A} i j (l : list A) : swap i j l ≡ₚ l.
Proof.
  unfold swap. destruct (l !! i) as [a|] eqn:Hi; [|done].
  destruct (l !! j) as [b|] eqn:Hj; [|done].
  destruct (decide (i = j)) as [->|Hne].
  { simplify_eq. rewrite list_insert_insert_eq. by rewrite list_insert_id. }
  assert (∀ (i j : nat) (l : list A) a b, (i < j)%nat →
    l !! i = Some a → l !! j = Some b →
    <[j := a]> (<[i := b]> l) ≡ₚ l) as Hlt.
  { clear. intros i j l a b Hij Hi Hj.
    apply list_elem_of_split_length in Hi as (l1 & l2 & -> & ->).
    rewrite lookup_app_r in Hj by lia.
    destruct (j - length l1)%nat as [|k] eqn:Hk; [lia|]. simpl in Hj.
    apply list_elem_of_split_length in Hj as (l3 & l4 & -> & ->).
    rewrite (insert_app_r_alt l1 _ (length l1)) by lia.
    rewrite Nat.sub_diag. simpl.
    rewrite insert_app_r_alt by lia. rewrite Hk. simpl.
    rewrite (insert_app_r_alt l3 _ (length l3)) by lia.
    rewrite Nat.sub_diag. simpl.
    apply Permutation_app_head.
    rewrite !(Permutation_middle l3). apply Permutation_app_head.
    apply perm_swap. }
  destruct (decide (i < j)%nat).
  - by apply Hlt.
  - rewrite list_insert_insert_ne by done. apply Hlt; [lia|done..].
Qed.

Lemma shuffle_down_perm {A} i (l : list A) g : (shuffle_down i l g).1 ≡ₚ l.
Proof.
  revert l g. induction i as [|i IH]; intros l g; simpl; [done|].
  destruct (randbelow (S (S i)) g) as [j g'].
  rewrite IH. apply swap_perm.
Qed.

Lemma shuffle_perm {A} (l : list A) g : (shuffle l g).1 ≡ₚ l.
Proof. apply shuffle_down_perm. Qed.

Lemma shuffled_perm {A} (l : list A) g : (shuffled l g).1 ≡ₚ l.
Proof. apply shuffle_perm. Qed.

Lemma randpop_perm {A} (l l' : list A) g g' x :
  randpop l g = Ok (x, l', g') → l ≡ₚ x :: l'.
Proof.
  unfold randpop, randrange. destruct l as [|y l0]; [done|].
  set (l := y :: l0). assert (0 < length l)%nat as Hlen by (simpl; lia).
  clearbody l. intros H.
  destruct (decide (0 < length l)%nat); [|lia]. simpl in H.
  pose proof (randbelow_lt (length l) g Hlen) as Hlt.
  destruct (randbelow (length l) g) as [idx g1]. simpl in *.
  inv_ok. subst.
  match goal with Hx : _ !! idx = Some _ |- _ =>
    pose proof (swap_lookup_r idx (length l - 1) l x Hx ltac:(lia)) as Hl
  end.
  rewrite <- (swap_perm idx (length l - 1) l) at 1.
  pose proof (length_swap idx (length l - 1) l) as Hlen2.
  set (l2 := swap idx (length l - 1) l) in *. clearbody l2.
  rewrite <- Hlen2 in Hl.
  replace (length l2 - 1)%nat with (pred (length l2)) in Hl by lia.
  rewrite <- last_lookup in Hl. apply last_Some in Hl as [l3 ->].
  rewrite removelast_last. symmetry. apply Permutation_cons_append.
Qed.

Lemma randpop_Ok {A} (l : list A) g :
  l ≠ [] → ∃ x l' g', randpop l g = Ok (x, l', g').
Proof.
  intros Hne. unfold randpop, randrange. destruct l as [|y l0]; [done|].
  set (l := y :: l0). assert (0 < length l)%nat as Hlen by (simpl; lia).
  clearbody l.
  destruct (decide (0 < length l)%nat); [|lia]. simpl.
  pose proof (randbelow_lt (length l) g Hlen) as Hlt.
  destruct (randbelow (length l) g) as [idx g1]. simpl in *.
  destruct (lookup_lt_is_Some_2 l idx Hlt) as [x Hx]. rewrite Hx. simpl.
  eauto.
Qed.

Lemma choice_elem_of {A} (l : list A) g x g' :
  choice l g = Ok (x, g') → x ∈ l.
Proof.
  unfold choice. destruct l as [|y l0]; [done|].
  destruct (randbelow _ g) as [i g1]. intros H. inv_ok. subst.
  by eapply list_elem_of_lookup_2.
Qed.

Lemma choice_Ok {A} (l : list A) g :
  l ≠ [] → ∃ x g', choice l g = Ok (x, g').
Proof.
  intros Hne. unfold choice. destruct l as [|y l0]; [done|].
  set (l := y :: l0). assert (0 < length l)%nat as Hlen by (simpl; lia).
  clearbody l.
  pose proof (randbelow_lt (length l) g Hlen) as Hlt.
  destruct (randbelow (length l) g) as [idx g1]. simpl in *.
  destruct (lookup_lt_is_Some_2 l idx Hlt) as [x Hx]. rewrite Hx. simpl.
  eauto.
Qed.

Lemma randint_Ok a b g :
  a ≤ b → ∃ k g', randint a b g = Ok (k, g') ∧ a ≤ k ≤ b.
Proof.
  intros Hab. unfold randint. destruct (decide (0 < b + 1 - a)); [|lia].
  pose proof (randbelow_lt (Z.to_nat (b + 1 - a)) g ltac:(lia)) as Hlt.
  destruct (randbelow _ g) as [k g']. simpl in Hlt.
  eexists _, _. split; [done|]. lia.
Qed.

Lemma randrange_Ok n g :
  (0 < n)%nat → ∃ k g', randrange n g = Ok (k, g') ∧ (k < n)%nat.
Proof.
  intros Hn. unfold randrange. destruct (decide (0 < n)%nat); [|lia].
  pose proof (randbelow_lt n g Hn).
  destruct (randbelow n g) as [k g']. eauto.
Qed.
End random_facts.

(** ** The grid *)

Lemma elem_of_grid s i j : (i, j) ∈ grid s ↔ 0 ≤ i < r s ∧ 0 ≤ j < c s.
Proof.
  unfold grid, range. rewrite list_elem_of_bind. split.
  - intros (i' & (j' & Hj & Hj')%list_elem_of_bind & Hi).
    apply list_elem_of_singleton in Hj. simplify_eq.
    apply elem_of_seqZ in Hi, Hj'. lia.
  - intros [Hi Hj]. exists i. split; [|apply elem_of_seqZ; lia].
    apply list_elem_of_bind. exists j. split; [by apply list_elem_of_singleton|].
    apply elem_of_seqZ; lia.
Qed.

Lemma NoDup_grid s : NoDup (grid s).
Proof.
  unfold grid, range. apply NoDup_bind; [| |apply NoDup_seqZ].
  - intros i1 i2 [i j] _ _ (j1 & ?%list_elem_of_singleton & _)%list_elem_of_bind
      (j2 & ?%list_elem_of_singleton & _)%list_elem_of_bind. congruence.
  - intros i _. apply NoDup_bind; [| |apply NoDup_seqZ].
    + intros j1 j2 y _ _ ?%list_elem_of_singleton ?%list_elem_of_singleton.
      congruence.
    + intros. apply NoDup_singleton.
Qed.

Lemma length_grid s :
  length (grid s) = (Z.to_nat (r s) * Z.to_nat (c s))%nat.
Proof.
  unfold grid, range.
  rewrite <- (length_seqZ 0 (r s)), <- (length_seqZ 0 (c s)).
  generalize (seqZ 0 (c s)). intros lc.
  induction (seqZ 0 (r s)) as [|i l IH]; csimpl; [done|].
  rewrite length_app. f_equal; [|apply IH].
  clear. induction lc; csimpl; auto.
Qed.

Lemma init_adj_lookup s x :
  adj (init s) !! x = if decide (x ∈ grid s) then Some [] else None.
Proof.
  simpl. destruct (decide (x ∈ grid s)) as [Hx|Hx].
  - apply elem_of_list_to_map_1.
    + rewrite <- list_fmap_compose. simpl. rewrite list_fmap_id. apply NoDup_grid.
    + apply list_elem_of_fmap. eauto.
  - apply not_elem_of_list_to_map_1.
    rewrite <- list_fmap_compose. simpl. by rewrite list_fmap_id.
Qed.

(** ** Path graphs *)

#[global] Instance occ_perm x : Proper ((≡ₚ) ==> (=)) (occ x).
Proof. intros l1 l2 Hl. unfold occ. by rewrite Hl. Qed.

Lemma occ_cons x y l :
  occ x (y :: l) = ((if decide (x = y) then 1 else 0) + occ x l)%nat.
Proof. unfold occ. rewrite filter_cons. by destruct (decide (x = y)). Qed.

Lemma occ_app x l1 l2 : occ x (l1 ++ l2) = (occ x l1 + occ x l2)%nat.
Proof. unfold occ. by rewrite filter_app, length_app. Qed.

Lemma occ_not_elem_of x l : x ∉ l → occ x l = 0%nat.
Proof.
  intros Hx. unfold occ.
  destruct (filter (x =.) l) as [|y l'] eqn:Hf; [done|].
  assert (y ∈ filter (x =.) l) as Hy by (rewrite Hf; left).
  apply list_elem_of_filter in Hy as [<- ?]. done.
Qed.

Lemma cardinal_sym x y : cardinal x y → cardinal y x.
Proof.
  unfold cardinal, DIJS. destruct x as [i j], y as [i' j']. simpl.
  rewrite !elem_of_cons, !elem_of_nil. intros H.
  destruct H as [H|[H|[H|[H|[]]]]]; injection H as H1 H2;
    [do 2 right; left | do 3 right; left | left | right; left];
    f_equal; lia.
Qed.

Lemma nbrs_rev l1 l2 : nbrs (reverse l2) (reverse l1) ≡ₚ nbrs l1 l2.
Proof.
  unfold nbrs. rewrite last_reverse, head_reverse. apply Permutation_app_comm.
Qed.

Lemma path_graph_rev adj p : path_graph adj p → path_graph adj (reverse p).
Proof.
  intros [Hnd Hp]. split; [by rewrite reverse_Permutation|].
  intros l1 x l2 Heq.
  assert (p = reverse l2 ++ x :: reverse l1) as Hp'.
  { rewrite <- (reverse_involutive p), Heq.
    by rewrite reverse_app, reverse_cons, <- app_assoc. }
  destruct (Hp _ _ _ Hp') as (nb & Hnb & Hperm).
  exists nb. split; [done|]. by rewrite Hperm, nbrs_rev.
Qed.

Lemma path_graph_ext adj adj' p :
  (∀ y, y ∈ p → adj' !! y = adj !! y) →
  path_graph adj p → path_graph adj' p.
Proof.
  intros Hext [Hnd Hp]. split; [done|]. intros l1 x l2 ->.
  rewrite Hext by (apply elem_of_app; right; left). by apply Hp.
Qed.

Lemma path_graph_singleton adj x :
  adj !! x = Some [] → path_graph adj [x].
Proof.
  intros Hx. split; [apply NoDup_singleton|].
  intros l1 y l2 Heq. destruct l1 as [|? [|??]]; simplify_eq/=.
  exists []. split; [done|reflexivity].
Qed.

Lemma snoc_split {A} (l k1 k2 : list A) n y :
  l ++ [n] = k1 ++ y :: k2 →
  (k2 = [] ∧ y = n ∧ k1 = l) ∨ (∃ k2', k2 = k2' ++ [n] ∧ l = k1 ++ y :: k2').
Proof.
  intros Heq. destruct k2 as [|z k2 _] using rev_ind.
  - left. by apply app_inj_tail in Heq as [-> ->].
  - right. rewrite app_comm_cons, app_assoc in Heq.
    apply app_inj_tail in Heq as [H1 H2]. subst. eauto.
Qed.

(** Attaching a new cell [n] to the last cell [x] of a path. *)
Lemma path_graph_snoc adj l1 x ax n :
  path_graph adj (l1 ++ [x]) → adj !! x = Some ax → n ∉ l1 ++ [x] →
  path_graph (<[n := [x]]> (<[x := ax ++ [n]]> adj)) (l1 ++ [x; n]).
Proof.
  intros [Hnd Hp] Hax Hn.
  assert (n ≠ x) as Hnx by (intros ->; apply Hn, elem_of_app; right; left).
  replace (l1 ++ [x; n]) with ((l1 ++ [x]) ++ [n]) by (by rewrite <- app_assoc).
  split.
  { apply NoDup_app. split_and!; [done| |apply NoDup_singleton].
    intros y Hy ->%list_elem_of_singleton. done. }
  intros k1 y k2 Heq.
  apply snoc_split in Heq as [(-> & -> & ->)|(k2' & -> & Heq)].
  { (* the new end *)
    exists [x]. rewrite lookup_insert_eq. split; [done|].
    unfold nbrs. by rewrite last_snoc. }
  assert (y ≠ n) as Hyn.
  { intros ->. apply Hn. rewrite Heq. apply elem_of_app. right. left. }
  rewrite lookup_insert_ne by done.
  destruct (Hp _ _ _ Heq) as (nb & Hnb & Hperm).
  apply snoc_split in Heq as [(-> & -> & ->)|(k2 & -> & ->)].
  - (* the old end *)
    simplify_eq. rewrite lookup_insert_eq. eexists. split; [done|].
    rewrite Hperm. unfold nbrs. simpl. by rewrite app_nil_r.
  - assert (y ≠ x) as Hyx.
    { intros ->. rewrite <- app_assoc in Hnd.
      apply NoDup_app in Hnd as (_ & _ & Hnd). simpl in Hnd.
      apply NoDup_cons in Hnd as [Hnd _]. apply Hnd.
      apply elem_of_app. right. left. }
    rewrite lookup_insert_ne by done.
    exists nb. split; [done|]. rewrite Hperm. unfold nbrs.
    f_equal. by destruct k2.
Qed.

(** Attaching a new cell [n] to the first cell [x] of a path. *)
Lemma path_graph_cons adj l2 x ax n :
  path_graph adj (x :: l2) → adj !! x = Some ax → n ∉ x :: l2 →
  path_graph (<[n := [x]]> (<[x := ax ++ [n]]> adj)) (n :: x :: l2).
Proof.
  intros Hp Hax Hn. apply path_graph_rev in Hp.
  rewrite reverse_cons in Hp.
  eapply path_graph_snoc in Hp; [|done|].
  - apply path_graph_rev in Hp.
    rewrite reverse_app, reverse_involutive in Hp. exact Hp.
  - rewrite <- reverse_cons. by rewrite elem_of_reverse.
Qed.

Lemma path_graph_degree adj l1 x l2 nb :
  path_graph adj (l1 ++ x :: l2) → adj !! x = Some nb →
  length nb = ((if l1 is [] then 0 else 1) + (if l2 is [] then 0 else 1))%nat.
Proof.
  intros [_ Hp] Hnb. destruct (Hp l1 x l2 eq_refl) as (nb' & ? & Hperm).
  simplify_eq. rewrite Hperm. unfold nbrs. rewrite length_app.
  f_equal.
  - destruct l1 as [|a l1 _] using rev_ind; [done|].
    rewrite last_snoc. by destruct l1.
  - by destruct l2.
Qed.

(** ** Counting the free cells *)

Lemma filter_free_insert (m : gmap cell nat) l x k :
  NoDup l → x ∈ l → m !! x = None →
  (length (filter (λ y, <[x := k]> m !! y = None) l) + 1)%nat =
  length (filter (λ y, m !! y = None) l).
Proof.
  intros Hnd Hx Hm. induction Hnd as [|y l Hy Hnd IH]; [by inversion Hx|].
  rewrite !filter_cons. destruct (decide (y = x)) as [->|Hne].
  - rewrite lookup_insert_eq. rewrite decide_False by done.
    rewrite decide_True by done. simpl.
    rewrite Nat.add_1_r. f_equal. f_equal.
    clear IH Hx Hnd. induction l as [|z l IH]; [done|].
    apply not_elem_of_cons in Hy as [Hz Hy].
    rewrite !filter_cons, lookup_insert_ne by done.
    destruct (decide (m !! z = None)); rewrite IH by done; done.
  - apply elem_of_cons in Hx as [?|Hx]; [done|].
    rewrite lookup_insert_ne by done.
    destruct (decide (m !! y = None)); simpl; rewrite <- IH by done; lia.
Qed.

Lemma length_free_insert (s : DifficultySettings) (m : gmap cell nat) x k :
  x ∈ grid s → m !! x = None →
  (length (free s (<[x := k]> m)) + 1)%nat = length (free s m).
Proof. intros. apply filter_free_insert; auto using NoDup_grid. Qed.

Lemma size_free (s : DifficultySettings) (m : gmap cell nat) :
  (∀ x, is_Some (m !! x) → x ∈ grid s) →
  (size m + length (free s m))%nat = length (grid s).
Proof.
  induction m as [|x k m Hx IH] using map_ind; intros Hdom.
  - rewrite map_size_empty. simpl. unfold free. f_equal. clear Hdom.
    induction (grid s) as [|y l IHl]; [done|].
    rewrite filter_cons, lookup_empty, decide_True by done. by f_equal.
  - rewrite map_size_insert_None by done.
    assert (x ∈ grid s) as Hxg by (apply Hdom; rewrite lookup_insert_eq; eauto).
    rewrite <- IH.
    + rewrite <- (length_free_insert s m x k) by done. lia.
    + intros y Hy. apply Hdom. destruct (decide (x = y)) as [->|].
      * rewrite lookup_insert_eq; eauto.
      * by rewrite lookup_insert_ne.
Qed.

Lemma concat_insert_snoc {A} (ls : list (list A)) k l n :
  ls !! k = Some l → concat (<[k := l ++ [n]]> ls) ≡ₚ n :: concat ls.
Proof.
  intros Hk. apply list_elem_of_split_length in Hk as (l1 & l2 & -> & ->).
  rewrite (insert_app_r_alt l1 _ (length l1)) by lia.
  rewrite Nat.sub_diag. simpl. rewrite !concat_app. simpl.
  rewrite <- !app_assoc. simpl. symmetry.
  etrans; [apply Permutation_middle|]. apply Permutation_app_head.
  apply Permutation_middle.
Qed.

(** ** The invariant of the strand builder *)

Lemma elem_of_concat {A} (x : A) (ls : list (list A)) :
  x ∈ concat ls ↔ ∃ l, l ∈ ls ∧ x ∈ l.
Proof.
  rewrite list_elem_of_In, in_concat. split; intros (l & H1 & H2); exists l.
  - by rewrite !list_elem_of_In.
  - by rewrite <- !list_elem_of_In.
Qed.

Lemma NoDup_concat_lookup {A} (ls : list (list A)) i j a b x :
  NoDup (concat ls) → ls !! i = Some a → ls !! j = Some b → i ≠ j →
  x ∈ a → x ∉ b.
Proof.
  revert i j. induction ls as [|l ls IH]; intros i j Hnd Hi Hj Hij Ha Hb;
    [done|].
  simpl in Hnd. apply NoDup_app in Hnd as (_ & Hl & Hnd).
  destruct i as [|i], j as [|j]; simplify_eq/=.
  - apply (Hl x Ha), elem_of_concat. exists b. split; [|done].
    by eapply list_elem_of_lookup_2.
  - apply (Hl x Hb), elem_of_concat. exists a. split; [|done].
    by eapply list_elem_of_lookup_2.
  - eapply (IH i j); eauto.
Qed.

Lemma NoDup_concat_elem {A} (ls : list (list A)) l :
  NoDup (concat ls) → l ∈ ls → NoDup l.
Proof.
  intros Hnd Hl. apply list_elem_of_split in Hl as (l1 & l2 & ->).
  rewrite concat_app in Hnd. simpl in Hnd.
  apply NoDup_app in Hnd as (_ & _ & Hnd).
  by apply NoDup_app in Hnd as (? & _ & _).
Qed.

Lemma inv_weaken s old st seeds seeds' :
  (∀ x, x ∈ seeds' → x ∈ seeds ∧ (occ x seeds' ≤ occ x seeds)%nat) →
  inv s old st seeds → inv s old st seeds'.
Proof.
  intros Hsub [? ? ? ? ? ? ? ? Hseeds]. split; try done.
  intros x [Hx Hocc]%Hsub.
  destruct (Hseeds x Hx) as (? & ? & nb & ? & ?).
  split_and!; [done..|]. exists nb. split; [done|lia].
Qed.

Lemma inv_perm s old st seeds seeds' :
  seeds ≡ₚ seeds' → inv s old st seeds → inv s old st seeds'.
Proof.
  intros Hp. apply inv_weaken. intros x Hx. by rewrite Hp.
Qed.

Lemma good_neighbors_spec s st x n :
  n ∈ good_neighbors s st x ↔
  cardinal x n ∧ n ∈ grid s ∧ strandi st !! n = None.
Proof.
  unfold good_neighbors, cardinal. rewrite list_elem_of_filter, list_elem_of_fmap.
  destruct n as [i j], x as [xi xj]. rewrite elem_of_grid. simpl. split.
  - intros ((? & ? & ?) & d & Hd & Hin). simplify_eq.
    split_and!; try done; try lia.
    replace (xi + d.1 - xi, xj + d.2 - xj) with d; [done|].
    destruct d; simpl; f_equal; lia.
  - intros (Hd & (? & ?) & ?). split; [done|].
    eexists. split; [|exact Hd]. simpl. f_equal; lia.
Qed.

Lemma inv_assigned s old st seeds x :
  inv s old st seeds → x ∈ concat (strands st) → is_Some (strandi st !! x).
Proof.
  intros Hinv (l & Hl & Hx)%elem_of_concat.
  by apply (inv_strands _ _ _ _ Hinv l Hl).
Qed.

Lemma attach_inv s old st x seeds n :
  inv s old st (x :: seeds) → n ∈ good_neighbors s st x →
  ∃ st', attach st x n = Ok st' ∧
    inv s old st' (seeds ++ [n]) ∧
    (length (free s (strandi st')) + 1)%nat = length (free s (strandi st)) ∧
    strandi st ⊆ strandi st'.
Proof.
  intros Hinv (Hcard & Hng & Hnfree)%good_neighbors_spec.
  pose proof Hinv as [Hadj Hedges Hsd Hfree Hstr Hdisj Hold Hnew Hseeds].
  destruct (Hseeds x) as (Holdx & [k Hk] & ax & Hax & Hocc); [left|].
  rewrite occ_cons, decide_True in Hocc by done.
  destruct (Hnew x k Hk Holdx) as (strand & Hstrand & Hxin).
  assert (n ≠ x) as Hnx by congruence.
  pose proof (Hfree n Hng Hnfree) as Han.
  assert (n ∉ concat (strands st)) as Hnstr.
  { intros [??]%(inv_assigned _ _ _ _ _ Hinv). congruence. }
  assert (old !! n = None) as Holdn by (by eapply lookup_weaken_None).
  assert (n ∉ seeds) as Hnseeds.
  { intros Hin. destruct (Hseeds n) as (_ & [??] & _); [by right|congruence]. }
  unfold attach. rewrite Hax. simpl. rewrite lookup_insert_ne, Han by done.
  simpl. rewrite Hk. simpl. rewrite Hstrand. simpl.
  eexists. split; [done|]. split; [|split]; simpl.
  2: { by apply length_free_insert. }
  2: { by apply insert_subseteq. }
  split; simpl.
  - (* inv_adj_dom *)
    intros y. rewrite <- Hadj. rewrite !lookup_insert_is_Some'.
    split; [|by auto]. intros [<-|[<-|?]]; eauto.
  - (* inv_edges *)
    intros y nb z Hy Hz.
    apply lookup_insert_Some in Hy as [[<- <-]|[_ Hy]].
    { apply list_elem_of_singleton in Hz as ->. by apply cardinal_sym. }
    apply lookup_insert_Some in Hy as [[<- <-]|[_ Hy]]; [|eauto].
    apply elem_of_app in Hz as [Hz| ->%list_elem_of_singleton]; eauto.
  - (* inv_strandi_dom *)
    intros y [<-|[_ ?]]%lookup_insert_is_Some; auto.
  - (* inv_free *)
    intros y Hyg [Hyn Hy]%lookup_insert_None.
    rewrite !lookup_insert_ne by congruence. auto.
  - (* inv_strands *)
    intros strand' [j Hj]%list_elem_of_lookup.
    apply list_lookup_insert_Some in Hj as [(<- & <- & _)|[Hjk Hj]].
    + split; [by destruct strand|]. split.
      * destruct (Hstr strand) as (_ & (p & Hp & Hpg) & _);
          [by eapply list_elem_of_lookup_2|].
        assert (n ∉ p) as Hnp.
        { rewrite Hp. intros Hin. apply Hnstr, elem_of_concat.
          exists strand. split; [by eapply list_elem_of_lookup_2|done]. }
        assert (x ∈ p) as Hxp by (by rewrite Hp).
        apply list_elem_of_split in Hxp as (l1 & l2 & ->).
        pose proof (path_graph_degree _ _ _ _ _ Hpg Hax) as Hdeg.
        destruct l2 as [|z l2].
        -- exists (l1 ++ [x; n]). split.
           ++ rewrite <- Hp. by rewrite <- app_assoc.
           ++ by apply path_graph_snoc.
        -- destruct l1 as [|z' l1]; [|simpl in Hdeg; lia].
           exists (n :: x :: z :: l2). split.
           ++ rewrite <- Hp. simpl. apply (Permutation_cons_append (x :: z :: l2)).
           ++ by apply path_graph_cons.
      * intros y [Hy| ->%list_elem_of_singleton]%elem_of_app.
        -- rewrite lookup_insert_is_Some. right. split; [|].
           ++ intros <-. apply Hnstr, elem_of_concat.
              exists strand. split; [by eapply list_elem_of_lookup_2|done].
           ++ apply (Hstr strand); [by eapply list_elem_of_lookup_2|done].
        -- rewrite lookup_insert_eq. eauto.
    + destruct (Hstr strand') as (? & (p & Hp & Hpg) & Has);
        [by eapply list_elem_of_lookup_2|].
      split; [done|]. split.
      * exists p. split; [done|]. eapply path_graph_ext; [|done].
        intros y Hy. rewrite Hp in Hy.
        rewrite !lookup_insert_ne; [done| |].
        -- intros <-. by eapply (NoDup_concat_lookup (strands st) k j).
        -- intros <-. apply Hnstr, elem_of_concat.
           exists strand'. split; [by eapply list_elem_of_lookup_2|done].
      * intros y Hy. rewrite lookup_insert_is_Some'. right. auto.
  - (* inv_disjoint *)
    rewrite concat_insert_snoc by done. by apply NoDup_cons.
  - (* inv_old *)
    by apply insert_subseteq_r.
  - (* inv_new *)
    intros y k' Hy Holdy.
    apply lookup_insert_Some in Hy as [[<- <-]|[Hny Hy]].
    + exists (strand ++ [n]). split.
      * apply list_lookup_insert_eq. by eapply lookup_lt_Some.
      * apply elem_of_app. right. left.
    + destruct (Hnew y k' Hy Holdy) as (strand' & Hs' & Hin).
      destruct (decide (k = k')) as [<-|Hkk].
      * simplify_eq. exists (strand ++ [n]). split.
        -- apply list_lookup_insert_eq. by eapply lookup_lt_Some.
        -- apply elem_of_app. by left.
      * exists strand'. by rewrite list_lookup_insert_ne.
  - (* inv_seeds *)
    intros y Hy. rewrite occ_app.
    apply elem_of_app in Hy as [Hy| ->%list_elem_of_singleton].
    + destruct (Hseeds y) as (? & ? & nb & Hnb & Hoccy); [by right|].
      assert (y ≠ n) as Hyn by (by intros ->).
      split; [done|]. split.
      { rewrite lookup_insert_is_Some'. by right. }
      rewrite (occ_not_elem_of y [n])
        by (by intros ?%list_elem_of_singleton).
      rewrite lookup_insert_ne by done.
      rewrite occ_cons in Hoccy.
      destruct (decide (y = x)) as [->|Hyx].
      * rewrite lookup_insert_eq. eexists. split; [done|].
        simplify_eq. rewrite length_app. simpl. lia.
      * rewrite lookup_insert_ne by done. exists nb. split; [done|]. lia.
    + split; [done|]. split; [rewrite lookup_insert_eq; eauto|].
      rewrite lookup_insert_eq. eexists. split; [done|].
      rewrite (occ_not_elem_of n seeds) by done.
      rewrite occ_cons, decide_True by done. unfold occ. simpl. lia.
Qed.

Lemma plant_inv s old st seeds x :
  inv s old st seeds → x ∈ grid s → strandi st !! x = None →
  inv s old (plant st x) (x :: x :: seeds).
Proof.
  intros Hinv Hxg Hx.
  pose proof Hinv as [Hadj Hedges Hsd Hfree Hstr Hdisj Hold Hnew Hseeds].
  assert (x ∉ concat (strands st)) as Hxstr.
  { intros [??]%(inv_assigned _ _ _ _ _ Hinv). congruence. }
  assert (old !! x = None) as Holdx by (by eapply lookup_weaken_None).
  assert (x ∉ seeds) as Hxseeds.
  { intros Hin. destruct (Hseeds x) as (_ & [??] & _); [done|congruence]. }
  split; simpl; try done.
  - intros y [<-|?]%lookup_insert_is_Some'; auto.
  - intros y Hyg [Hyn Hy]%lookup_insert_None. auto.
  - intros strand [Hin| ->%list_elem_of_singleton]%elem_of_app.
    + destruct (Hstr strand Hin) as (? & ? & Has). split_and!; [done..|].
      intros y Hy. rewrite lookup_insert_is_Some'. auto.
    + split; [done|]. split.
      * exists [x]. split; [done|]. apply path_graph_singleton. auto.
      * intros y ->%list_elem_of_singleton. rewrite lookup_insert_eq. eauto.
  - rewrite concat_app. simpl. apply NoDup_app. split_and!; [done| |].
    + intros y Hy ->%list_elem_of_singleton. done.
    + apply NoDup_singleton.
  - by apply insert_subseteq_r.
  - intros y k Hy Holdy.
    apply lookup_insert_Some in Hy as [[<- <-]|[Hny Hy]].
    + exists [x]. split; [|left]. by apply list_lookup_middle.
    + destruct (Hnew y k Hy Holdy) as (strand & Hs & Hin).
      exists strand. split; [|done]. by apply lookup_app_l_Some.
  - intros y Hy. rewrite !occ_cons.
    destruct (decide (y = x)) as [->|Hyx].
    + split; [done|]. split; [rewrite lookup_insert_eq; eauto|].
      exists []. split; [auto|]. rewrite occ_not_elem_of by done. simpl. lia.
    + apply elem_of_cons in Hy as [?|Hy]; [done|].
      apply elem_of_cons in Hy as [?|Hy]; [done|].
      destruct (Hseeds y Hy) as (? & ? & nb & ? & ?).
      split; [done|]. split; [rewrite lookup_insert_is_Some'; auto|].
      exists nb. split; [done|]. simpl. lia.
Qed.

Lemma plant_all_inv s old l : ∀ st seeds,
  inv s old st seeds → NoDup l →
  (∀ x, x ∈ l → x ∈ grid s ∧ strandi st !! x = None) →
  inv s old (foldl plant st l) (l ++ l ++ seeds) ∧
  strandi st ⊆ strandi (foldl plant st l) ∧
  (length (free s (strandi (foldl plant st l))) + length l)%nat =
    length (free s (strandi st)).
Proof.
  induction l as [|x l IH]; intros st seeds Hinv Hnd Hl; simpl.
  { split; [done|]. split; [done|lia]. }
  apply NoDup_cons in Hnd as [Hxl Hnd].
  destruct (Hl x) as [Hxg Hx]; [left|].
  destruct (IH (plant st x) (x :: x :: seeds)) as (Hinv' & Hsub & Hlen).
  - by apply plant_inv.
  - done.
  - intros y Hy. destruct (Hl y) as [? ?]; [by right|]. split; [done|].
    simpl. rewrite lookup_insert_ne; [done|]. by intros ->.
  - split; [|split].
    + eapply inv_perm; [|done].
      simpl. rewrite <- !(Permutation_middle _ _ x). reflexivity.
    + etrans; [|done]. simpl. by apply insert_subseteq.
    + rewrite <- (length_free_insert s (strandi st) x (length (strands st)))
        by done.
      simpl in Hlen. lia.
Qed.

Lemma prune_inv s old st :
  inv s old st [] → settled s (prune st).
Proof.
  intros [Hadj Hedges Hsd Hfree Hstr Hdisj Hold Hnew Hseeds].
  split.
  - split; simpl; try done.
    + intros strand [_ Hin]%list_elem_of_filter. auto.
    + eapply sublist_NoDup; [done|].
      generalize (strands st). clear. intros ls.
      induction ls as [|l ls IH]; [constructor|].
      rewrite filter_cons. destruct (decide _); simpl.
      * by apply sublist_app.
      * by apply sublist_inserts_l.
    + intros x k Hx Hnone. congruence.
    + intros x Hx. by apply elem_of_nil in Hx.
  - simpl. apply Forall_forall. by intros l [? _]%list_elem_of_filter.
Qed.

Lemma slice_to_sublist {A} k (l : list A) : slice_to k l `sublist_of` l.
Proof. unfold slice_to. destruct (decide _); apply sublist_take. Qed.

Lemma length_slice_to {A} k (l : list A) :
  1 ≤ k → l ≠ [] → (0 < length (slice_to k l))%nat.
Proof.
  intros Hk Hl. unfold slice_to. rewrite decide_True by lia.
  rewrite length_take. destruct l; [done|]. simpl. lia.
Qed.

Arguments choice : simpl never.
Arguments randpop : simpl never.
Arguments attach : simpl never.

Section builder_facts.
Context {G : Type} `{!Random G}.

Lemma grow_step_inv s old st seeds g :
  inv s old st seeds → seeds ≠ [] →
  ∃ st' seeds' g', grow_step s st seeds g = Ok (st', seeds', g') ∧
    inv s old st' seeds' ∧
    (length seeds' + length (free s (strandi st')) <
       length seeds + length (free s (strandi st)))%nat ∧
    (length (free s (strandi st')) ≤ length (free s (strandi st)))%nat ∧
    strandi st ⊆ strandi st'.
Proof.
  intros Hinv Hne.
  destruct (randpop_Ok seeds g Hne) as (x & seeds1 & g1 & Hpop).
  pose proof (randpop_perm _ _ _ _ _ Hpop) as Hperm.
  apply (inv_perm _ _ _ _ _ Hperm) in Hinv.
  unfold grow_step. rewrite Hpop. simpl.
  destruct (inv_seeds _ _ _ _ Hinv x) as (_ & Hsome & _); [left|].
  rewrite decide_True by done.
  destruct (good_neighbors s st x) as [|n0 ns] eqn:Hgn.
  - eexists _, _, _. split; [done|]. split; [|split; [|done]].
    + eapply inv_weaken; [|done]. intros y Hy. split; [by right|].
      rewrite occ_cons. lia.
    + rewrite Hperm. simpl. lia.
  - destruct (choice_Ok (n0 :: ns) g1) as (n & g2 & Hch); [done|].
    rewrite Hch. simpl.
    apply choice_elem_of in Hch as Hn. rewrite <- Hgn in Hn.
    destruct (attach_inv _ _ _ _ _ _ Hinv Hn)
      as (st' & Hat & Hinv' & Hfree & Hsub).
    rewrite Hat. simpl. eexists _, _, _. split; [done|].
    split; [done|]. split; [|split; [lia|done]].
    rewrite Hperm, length_app. simpl. lia.
Qed.

Lemma grow_preserves s old fuel : ∀ st seeds g st' g',
  inv s old st seeds → grow fuel s st seeds g = Ok (st', g') →
  inv s old st' [] ∧ strandi st ⊆ strandi st' ∧
  (length (free s (strandi st')) ≤ length (free s (strandi st)))%nat.
Proof.
  induction fuel as [|fuel IH]; intros st seeds g st' g' Hinv Hgrow;
    (destruct seeds as [|x0 seeds0];
      [simpl in Hgrow; simplify_eq; by split_and!|]); [done|].
  destruct (grow_step_inv s old st (x0 :: seeds0) g Hinv)
    as (st1 & seeds1 & g1 & Hstep & Hinv1 & Hlt & Hle & Hsub); [done|].
  simpl in Hgrow. rewrite Hstep in Hgrow. simpl in Hgrow.
  destruct (IH _ _ _ _ _ Hinv1 Hgrow) as (? & ? & ?).
  split_and!; [done|by etrans|lia].
Qed.

Lemma grow_total s old fuel : ∀ st seeds g,
  inv s old st seeds →
  (length seeds + length (free s (strandi st)) ≤ fuel)%nat →
  ∃ st' g', grow fuel s st seeds g = Ok (st', g').
Proof.
  induction fuel as [|fuel IH]; intros st seeds g Hinv Hfuel;
    (destruct seeds as [|x0 seeds0]; [simpl; eauto|]);
    [simpl in Hfuel; lia|].
  destruct (grow_step_inv s old st (x0 :: seeds0) g Hinv)
    as (st1 & seeds1 & g1 & Hstep & Hinv1 & Hlt & Hle & Hsub); [done|].
  simpl. rewrite Hstep. simpl. apply (IH _ _ _ Hinv1). lia.
Qed.

Lemma round_preserves s fuel st g st' g' :
  settled s st → round fuel s st g = Ok (st', g') →
  settled s st' ∧ strandi st ⊆ strandi st' ∧
  (1 ≤ endcl s → free s (strandi st) ≠ [] →
   (length (free s (strandi st')) < length (free s (strandi st)))%nat).
Proof.
  intros [Hinv _] Hround. unfold round in Hround.
  fold (free s (strandi st)) in Hround.
  pose proof (shuffled_perm (free s (strandi st)) g) as Hperm.
  destruct (shuffled (free s (strandi st)) g) as [l g1]. simpl in Hperm.
  pose proof (slice_to_sublist (endcl s) l) as Hsub.
  set (seeds := slice_to (endcl s) l) in *.
  destruct (plant_all_inv s (strandi st) seeds st [] Hinv)
    as (Hinv1 & Hsub1 & Hlen1).
  { eapply sublist_NoDup; [|done]. rewrite Hperm.
    apply NoDup_filter, NoDup_grid. }
  { intros x Hx. eapply elem_of_sublist in Hx; [|done].
    rewrite Hperm in Hx. by apply list_elem_of_filter in Hx as [? ?]. }
  rewrite app_nil_r in Hinv1.
  apply bind_Ok in Hround as ([st2 g2] & Hgrow & Hret).
  injection Hret as <- <-.
  destruct (grow_preserves _ _ _ _ _ _ _ _ Hinv1 Hgrow) as (Hinv2 & Hsub2 & Hle).
  split; [by eapply prune_inv|]. simpl. split; [by etrans|].
  intros Hendcl Hfree.
  assert (0 < length seeds)%nat; [|lia].
  apply length_slice_to; [done|]. intros ->.
  by apply Permutation_nil_l in Hperm.
Qed.

Lemma round_total s fuel st g :
  settled s st → (2 * length (free s (strandi st)) ≤ fuel)%nat →
  ∃ st' g', round fuel s st g = Ok (st', g').
Proof.
  intros [Hinv _] Hfuel. unfold round.
  fold (free s (strandi st)).
  pose proof (shuffled_perm (free s (strandi st)) g) as Hperm.
  destruct (shuffled (free s (strandi st)) g) as [l g1]. simpl in Hperm.
  pose proof (slice_to_sublist (endcl s) l) as Hsub.
  set (seeds := slice_to (endcl s) l) in *.
  destruct (plant_all_inv s (strandi st) seeds st [] Hinv)
    as (Hinv1 & Hsub1 & Hlen1).
  { eapply sublist_NoDup; [|done]. rewrite Hperm.
    apply NoDup_filter, NoDup_grid. }
  { intros x Hx. eapply elem_of_sublist in Hx; [|done].
    rewrite Hperm in Hx. by apply list_elem_of_filter in Hx as [? ?]. }
  rewrite app_nil_r in Hinv1.
  destruct (grow_total s _ fuel _ _ g1 Hinv1) as (st2 & g2 & Hgrow).
  { rewrite length_app. lia. }
  rewrite Hgrow. simpl. eauto.
Qed.

Lemma build_preserves s fuel : ∀ st g st' g',
  settled s st → build fuel s st g = Ok (st', g') →
  settled s st' ∧ strandi st ⊆ strandi st' ∧
  ¬ (Z.of_nat (size (strandi st')) < r s * c s).
Proof.
  induction fuel as [|fuel IH]; intros st g st' g' Hst Hb; simpl in Hb;
    (destruct (decide _); [|by simplify_eq]); [done|].
  apply bind_Ok in Hb as ([st1 g1] & Hround & Hb).
  destruct (round_preserves _ _ _ _ _ _ Hst Hround) as (Hst1 & Hsub & _).
  destruct (IH _ _ _ _ Hst1 Hb) as (? & ? & ?).
  split_and!; [done|by etrans|done].
Qed.

Lemma build_total s fuel : ∀ st g,
  settled s st → 0 ≤ r s → 0 ≤ c s → 1 ≤ endcl s →
  (2 * length (free s (strandi st)) + 1 ≤ fuel)%nat →
  ∃ st' g', build fuel s st g = Ok (st', g').
Proof.
  induction fuel as [|fuel IH]; intros st g Hst Hr Hc Hendcl Hfuel;
    [lia|].
  simpl. destruct (decide _) as [Hlt|]; [|eauto].
  destruct (round_total s fuel st g Hst) as (st1 & g1 & Hround); [lia|].
  rewrite Hround. simpl.
  destruct (round_preserves _ _ _ _ _ _ Hst Hround) as (Hst1 & Hsub & Hprog).
  apply IH; try done.
  assert (free s (strandi st) ≠ []) as Hfree.
  { intros Hnil.
    pose proof (size_free s (strandi st)
      (inv_strandi_dom _ _ _ _ (proj1 Hst))) as Hsize.
    rewrite Hnil, length_grid in Hsize. simpl in Hsize. nia. }
  specialize (Hprog Hendcl Hfree). lia.
Qed.
End builder_facts.

(** ** The path extractor on a path graph *)

Lemma filter_none {A} (P : A → Prop) `{!∀ x, Decision (P x)} (l : list A) :
  (∀ x, x ∈ l → ¬ P x) → filter P l = [].
Proof.
  induction l as [|x l IH]; intros Hl; [done|].
  rewrite filter_cons, decide_False by (apply Hl; left).
  apply IH. intros y Hy. apply Hl. by right.
Qed.

Lemma ends_filter (adj : gmap cell (list cell)) (strand : list cell) :
  (∀ x, x ∈ strand → is_Some (adj !! x)) →
  ends adj strand = Ok (filter (λ x, degree adj x = 1%nat) strand).
Proof.
  induction strand as [|x strand IH]; intros Hs; [done|].
  simpl. destruct (Hs x) as [ax Hax]; [left|]. rewrite Hax. simpl.
  rewrite IH by (intros y Hy; apply Hs; by right). simpl.
  rewrite filter_cons.
  assert (degree adj x = length ax) as -> by (unfold degree; by rewrite Hax).
  by destruct (decide (length ax = 1%nat)).
Qed.

Lemma path_graph_lookup adj p x :
  path_graph adj p → x ∈ p → is_Some (adj !! x).
Proof.
  intros [_ Hp] (l1 & l2 & ->)%list_elem_of_split.
  destruct (Hp l1 x l2 eq_refl) as (nb & ? & _). eauto.
Qed.

Lemma path_graph_degree' adj l1 x l2 :
  path_graph adj (l1 ++ x :: l2) →
  degree adj x =
    ((if l1 is [] then 0 else 1) + (if l2 is [] then 0 else 1))%nat.
Proof.
  intros Hp. destruct (path_graph_lookup adj _ x Hp) as [nb Hnb].
  { apply elem_of_app. right. left. }
  unfold degree. rewrite Hnb. simpl. by eapply path_graph_degree.
Qed.

Lemma path_graph_ends adj p :
  path_graph adj p → (2 ≤ length p)%nat →
  ∃ a mid b, p = a :: mid ++ [b] ∧ a ≠ b ∧
    filter (λ x, degree adj x = 1%nat) p = [a; b].
Proof.
  intros Hp Hlen. destruct p as [|a p]; [simpl in Hlen; lia|].
  destruct p as [|b mid _] using rev_ind; [simpl in Hlen; lia|].
  exists a, mid, b. split; [done|]. split.
  { intros ->. destruct Hp as [Hnd _]. apply NoDup_cons in Hnd as [Hnd _].
    apply Hnd, elem_of_app. right. left. }
  rewrite filter_cons, filter_app, filter_cons, filter_nil.
  rewrite (path_graph_degree' adj [] a (mid ++ [b])) by done.
  rewrite (path_graph_degree' adj (a :: mid) b [])
    by (by rewrite <- app_comm_cons).
  rewrite filter_none.
  - destruct mid; done.
  - intros y (m1 & m2 & ->)%list_elem_of_split.
    rewrite (path_graph_degree' adj (a :: m1) y (m2 ++ [b])).
    + destruct m2; simpl; lia.
    + by rewrite <- !app_assoc in Hp.
Qed.

Lemma ends_path adj strand p :
  p ≡ₚ strand → path_graph adj p → (2 ≤ length p)%nat →
  ∃ q a mid b, (q = p ∨ q = reverse p) ∧ q = a :: mid ++ [b] ∧ a ≠ b ∧
    ends adj strand = Ok [a; b].
Proof.
  intros Hperm Hp Hlen.
  destruct (path_graph_ends adj p Hp Hlen) as (a & mid & b & Heq & Hab & Hf).
  rewrite ends_filter.
  2: { intros x Hx. rewrite <- Hperm in Hx. by eapply path_graph_lookup. }
  assert (filter (λ x, degree adj x = 1%nat) strand ≡ₚ [a; b]) as Hfs
    by (by rewrite <- Hperm, Hf).
  symmetry in Hfs. apply Permutation_length_2_inv in Hfs as [->| ->].
  - exists p, a, mid, b. auto.
  - exists (reverse p), b, (reverse mid), a. split_and!; auto.
    rewrite Heq, reverse_cons, reverse_app. reflexivity.
Qed.

Lemma walk_unfold fuel adj ecell seq :
  walk fuel adj ecell seq =
  (cur ← getitem (from_end 1 seq) IndexError;
   if decide (cur ≠ ecell) then
     match fuel with
     | O => OutOfFuel
     | S fuel =>
       acur ← getitem (adj !! cur) KeyError;
       prev ← getitem (from_end 2 seq) IndexError;
       match elements ((list_to_set acur : gset cell) ∖ {[prev]}) with
       | [ccell] => walk fuel adj ecell (seq ++ [ccell])
       | _ => Raise ValueError
       end
     end
   else Ok seq).
Proof. by destruct fuel. Qed.

Lemma from_end_1 {A} (l : list A) x : from_end 1 (l ++ [x]) = Some x.
Proof.
  unfold from_end. rewrite length_app. simpl.
  rewrite decide_True by lia. rewrite lookup_app_r by lia.
  by replace (length l + 1 - 1 - length l)%nat with 0%nat by lia.
Qed.

Lemma from_end_2 {A} (l : list A) x y : from_end 2 (l ++ [x; y]) = Some x.
Proof.
  unfold from_end. rewrite length_app. simpl.
  rewrite decide_True by lia. rewrite lookup_app_r by lia.
  by replace (length l + 2 - 2 - length l)%nat with 0%nat by lia.
Qed.

Lemma walk_path adj b : ∀ l2 fuel l1 x pre prev,
  path_graph adj (l1 ++ x :: l2) → last (x :: l2) = Some b →
  (l1 = [] ∧ prev = x) ∨ last l1 = Some prev →
  (length l2 ≤ fuel)%nat →
  walk fuel adj b (pre ++ [prev; x]) = Ok (pre ++ [prev; x] ++ l2).
Proof.
  induction l2 as [|y l2 IH]; intros fuel l1 x pre prev Hp Hlast Hprev Hfuel.
  { simpl in Hlast. simplify_eq. rewrite walk_unfold.
    rewrite (from_end_1 (pre ++ [prev]) b)
      || (replace (pre ++ [prev; b]) with ((pre ++ [prev]) ++ [b])
            by (by rewrite <- app_assoc);
          rewrite from_end_1).
    simpl. rewrite decide_False by auto. by rewrite <- app_assoc. }
  destruct fuel as [|fuel]; [simpl in Hfuel; lia|].
  pose proof Hp as [Hnd Hadj].
  assert (x ≠ b) as Hxb.
  { intros ->. apply NoDup_app in Hnd as (_ & _ & Hnd).
    apply NoDup_cons in Hnd as [Hnd _]. apply Hnd.
    rewrite last_cons_cons in Hlast. by apply last_Some_elem_of. }
  assert (y ≠ x) as Hyx.
  { intros ->. apply NoDup_app in Hnd as (_ & _ & Hnd).
    apply NoDup_cons in Hnd as [Hnd _]. apply Hnd. left. }
  destruct (Hadj l1 x (y :: l2) eq_refl) as (nb & Hnb & Hperm).
  rewrite walk_unfold.
  replace (pre ++ [prev; x]) with ((pre ++ [prev]) ++ [x]) at 1
    by (by rewrite <- app_assoc).
  rewrite from_end_1. simpl. rewrite decide_True by done.
  rewrite Hnb. simpl. rewrite from_end_2. simpl.
  assert ((list_to_set nb : gset cell) ∖ {[prev]} = {[y]}) as ->.
  { apply set_eq. intros z.
    rewrite elem_of_difference, elem_of_list_to_set, Hperm, !elem_of_singleton.
    unfold nbrs. simpl. rewrite elem_of_app, list_elem_of_singleton.
    destruct Hprev as [[-> ->]|Hl1].
    - simpl. rewrite elem_of_nil. split; [tauto|]. intros ->. auto.
    - rewrite Hl1. simpl. rewrite list_elem_of_singleton.
      split; [tauto|]. intros ->. split; [auto|].
      intros ->. apply NoDup_app in Hnd as (_ & Hnd & _).
      apply (Hnd prev); [by apply last_Some_elem_of|]. right. left. }
  rewrite elements_singleton.
  replace ((pre ++ [prev; x]) ++ [y]) with ((pre ++ [prev]) ++ [x; y])
    by (by rewrite <- !app_assoc).
  rewrite (IH fuel (l1 ++ [x]) y (pre ++ [prev]) x).
  - by rewrite <- !app_assoc.
  - by rewrite <- app_assoc.
  - by rewrite last_cons_cons in Hlast.
  - right. apply last_snoc.
  - simpl in Hfuel. lia.
Qed.

Lemma walk_whole adj fuel a mid b :
  path_graph adj (a :: mid ++ [b]) → (length mid + 1 ≤ fuel)%nat →
  walk fuel adj b [a; a] = Ok (a :: a :: mid ++ [b]).
Proof.
  intros Hp Hfuel.
  apply (walk_path adj b (mid ++ [b]) fuel [] a [] a); try done.
  - rewrite last_cons. by rewrite last_snoc.
  - by left.
  - rewrite length_app. simpl. lia.
Qed.

(** ** More fuel does not change a result *)

Lemma walk_mono adj ecell fuel : ∀ fuel' seq res,
  (fuel ≤ fuel')%nat → walk fuel adj ecell seq = Ok res →
  walk fuel' adj ecell seq = Ok res.
Proof.
  induction fuel as [|fuel IH]; intros fuel' seq res Hle Hw;
    rewrite walk_unfold in Hw |- *;
    apply bind_Ok in Hw as (cur & Hcur & Hw); rewrite Hcur; simpl;
    (destruct (decide (cur ≠ ecell)); [|done]); [done|].
  destruct fuel' as [|fuel']; [lia|].
  apply bind_Ok in Hw as (acur & Hacur & Hw). rewrite Hacur. simpl.
  apply bind_Ok in Hw as (prev & Hprev & Hw). rewrite Hprev. simpl.
  destruct (elements _) as [|ccell [|??]]; try done.
  apply IH; [lia|done].
Qed.

Section fuel.
Context {G : Type} `{!Random G}.




Lemma cleanse_mono s adj fuel fuel' strand g res :
  (fuel ≤ fuel')%nat → cleanse fuel s adj strand g = Ok res →
  cleanse fuel' s adj strand g = Ok res.
Proof.
  intros Hle. unfold cleanse.
  intros (es & Hes & Hc)%bind_Ok. rewrite Hes. simpl.
  destruct es as [|scell [|ecell [|??]]]; try done.
  apply bind_Ok in Hc as (seq & Hwalk & Hc).
  by rewrite (walk_mono _ _ _ _ _ _ Hle Hwalk).
Qed.



Context {F : Type} `{!Float F}.



End fuel.

Lemma length_removelast' {A} (l : list A) :
  length (removelast l) = pred (length l).
Proof.
  destruct l as [|x l _] using rev_ind; [done|].
  rewrite removelast_last, length_app. simpl. lia.
Qed.

Lemma segment_cons path x q : segment path q → segment path (x :: q).
Proof. intros (l1 & l2 & ->). by exists (x :: l1), l2. Qed.

Lemma segment_snoc path x q : segment path q → segment path (q ++ [x]).
Proof.
  intros (l1 & l2 & ->). exists l1, (l2 ++ [x]). by rewrite <- !app_assoc.
Qed.

Lemma segment_refl q : segment q q.
Proof. exists [], []. by rewrite app_nil_r. Qed.

Lemma segment_reverse path q :
  segment path q → segment (reverse path) (reverse q).
Proof.
  intros (l1 & l2 & ->). exists (reverse l2), (reverse l1).
  by rewrite !reverse_app, <- app_assoc.
Qed.

Arguments randrange : simpl never.
Arguments randint : simpl never.

Section extractor_facts.
Context {G : Type} `{!Random G}.

Lemma trim_count_Ok s seq g :
  ∃ t g1, trim_count s seq g = Ok (t, g1) ∧
    t ≤ Z.max 0 (trim_bound s seq) ∧ (0 < trim_bound s seq → 0 ≤ t).
Proof.
  unfold trim_count. destruct (decide (0 < trim_bound s seq)) as [Hb|Hb].
  - destruct (randint_Ok 0 (trim_bound s seq) g) as (t & g1 & -> & Ht);
      [lia|].
    exists t, g1. split; [done|]. lia.
  - eexists _, _. split; [done|]. lia.
Qed.

Lemma trim_S n seq g :
  trim (S n) seq g =
  ('(b, g) ← randrange 2 g;
   seq ← (if decide (b ≠ 0%nat) then popleft seq else pop seq);
   trim n seq g).
Proof. reflexivity. Qed.

(** Trimming the walked sequence, which starts with the start cell
    twice, and then dropping the front cell is trimming the sequence of
    the strand's cells. *)
Lemma trim_sentinel n : ∀ a q g,
  (n ≤ length q)%nat →
  ('(seq, g') ← trim n (a :: q) g; seq' ← popleft seq; Ok (seq', g')) =
  trim n q g.
Proof.
  induction n as [|n IH]; intros a q g Hn; [reflexivity|].
  rewrite !trim_S.
  destruct (randrange 2 g) as [[b g1]| |]; simpl; [|reflexivity..].
  destruct q as [|q0 q]; [simpl in Hn; lia|].
  destruct (decide (b ≠ 0%nat)); simpl.
  - apply IH. simpl in Hn. lia.
  - destruct q as [|q1 q]; simpl.
    + destruct n; [done|simpl in Hn; lia].
    + apply (IH a (removelast (q0 :: q1 :: q))).
      rewrite length_removelast'. simpl in *. lia.
Qed.

Lemma trim_segment n : ∀ q g,
  (n ≤ length q)%nat →
  ∃ path g', trim n q g = Ok (path, g') ∧ segment path q ∧
    (length path + n)%nat = length q.
Proof.
  induction n as [|n IH]; intros q g Hn.
  { eexists _, _. split; [done|]. split; [apply segment_refl|lia]. }
  rewrite trim_S.
  destruct (randrange_Ok 2 g) as (b & g1 & -> & _); [lia|]. simpl.
  destruct (decide (b ≠ 0%nat)).
  - destruct q as [|q0 q]; [simpl in Hn; lia|]. simpl.
    destruct (IH q g1) as (path & g' & -> & Hseg & Hlen);
      [simpl in Hn; lia|].
    eexists _, _. split; [done|].
    split; [by apply segment_cons|simpl; lia].
  - destruct q as [|z q _] using rev_ind; [simpl in Hn; lia|].
    rewrite length_app in Hn. simpl in Hn.
    assert (pop (q ++ [z]) = Ok q) as ->.
    { unfold pop. rewrite removelast_last. by destruct q. }
    simpl. destruct (IH q g1) as (path & g' & -> & Hseg & Hlen); [lia|].
    eexists _, _. split; [done|].
    split; [by apply segment_snoc|rewrite length_app; simpl; lia].
Qed.

Lemma cleanse_spec fuel s adj strand p g :
  p ≡ₚ strand → path_graph adj p →
  (2 ≤ length p)%nat → (length p ≤ fuel + 1)%nat →
  ∃ q a t g1 path g',
    (q = p ∨ q = reverse p) ∧ head q = Some a ∧
    trim_count s (a :: q) g = Ok (t, g1) ∧
    trim (Z.to_nat t) q g1 = Ok (path, g') ∧
    cleanse fuel s adj strand g = Ok (path, g') ∧
    segment path q ∧ (length path + Z.to_nat t)%nat = length q.
Proof.
  intros Hperm Hp Hlen Hfuel.
  destruct (ends_path adj strand p Hperm Hp Hlen)
    as (q & a & mid & b & Hq & Heq & Hab & Hends).
  assert (path_graph adj q ∧ length q = length p) as [Hpq Hlq].
  { destruct Hq as [-> | ->]; [done|].
    split; [by apply path_graph_rev|apply length_reverse]. }
  rewrite Heq in Hpq.
  assert (length q = (length mid + 2)%nat) as Hlq'.
  { rewrite Heq. simpl. rewrite length_app. simpl. lia. }
  destruct (trim_count_Ok s (a :: q) g) as (t & g1 & Ht & Hle & _).
  assert (Z.to_nat t ≤ length q)%nat as Htq.
  { unfold trim_bound in Hle. lia. }
  destruct (trim_segment (Z.to_nat t) q g1 Htq)
    as (path & g' & Htrim & Hseg & Hlpath).
  exists q, a, t, g1, path, g'. split_and!; try done.
  { by rewrite Heq. }
  unfold cleanse. rewrite Hends. simpl.
  rewrite (walk_whole adj fuel a mid b Hpq) by lia. simpl.
  rewrite <- Heq, Ht. simpl.
  rewrite <- Htrim. apply trim_sentinel. done.
Qed.

Lemma cleanse_cleansed fuel s adj strand p g path g' :
  p ≡ₚ strand → path_graph adj p → (2 ≤ length p)%nat →
  cleanse fuel s adj strand g = Ok (path, g') →
  cleansed adj path strand.
Proof.
  intros Hperm Hp Hlen Hc.
  destruct (cleanse_spec (fuel `max` length p) s adj strand p g)
    as (q & a & t & g1 & path' & g'' & Hq & _ & _ & _ & Hc' & Hseg & _);
    [done|done|done|lia|].
  rewrite (cleanse_mono s adj fuel (fuel `max` length p) strand g _
    ltac:(lia) Hc) in Hc'.
  simplify_eq. exists q. split_and!; [|by destruct Hq as [-> | ->];
    [|apply path_graph_rev]|done].
  destruct Hq as [-> | ->]; [done|]. by rewrite reverse_Permutation.
Qed.

Lemma cleanse_all_cleansed fuel s adj : ∀ sel g paths g',
  Forall (λ strand, ∃ p, p ≡ₚ strand ∧ path_graph adj p ∧
                         (2 ≤ length p)%nat) sel →
  cleanse_all fuel s adj sel g = Ok (paths, g') →
  Forall2 (cleansed adj) paths sel.
Proof.
  induction sel as [|strand sel IH]; intros g paths g' Hsel Hc.
  { simpl in Hc. simplify_eq. constructor. }
  apply Forall_cons in Hsel as [(p & Hperm & Hp & Hlen) Hsel].
  simpl in Hc. apply bind_Ok in Hc as ([path g1] & Hcl & Hc).
  apply bind_Ok in Hc as ([rest g2] & Hall & Hc). simplify_eq.
  constructor; [by eapply cleanse_cleansed|by eapply IH].
Qed.

Lemma cleanse_all_Ok fuel s adj : ∀ sel g,
  Forall (λ strand, ∃ p, p ≡ₚ strand ∧ path_graph adj p ∧
                         (2 ≤ length p ≤ fuel + 1)%nat) sel →
  ∃ paths g', cleanse_all fuel s adj sel g = Ok (paths, g').
Proof.
  induction sel as [|strand sel IH]; intros g Hsel; [simpl; eauto|].
  apply Forall_cons in Hsel as [(p & Hperm & Hp & Hlen) Hsel].
  destruct (cleanse_spec fuel s adj strand p g)
    as (_ & _ & _ & _ & path & g1 & _ & _ & _ & _ & Hc & _);
    [done|done|lia|lia|].
  simpl. rewrite Hc. simpl.
  destruct (IH g1 Hsel) as (paths & g' & ->). simpl. eauto.
Qed.
End extractor_facts.

(** ** The stable sort by descending length *)

Lemma insert_desc_perm {A} (x : list A) l : insert_desc x l ≡ₚ x :: l.
Proof.
  induction l as [|y l IH]; [done|]. simpl.
  destruct (decide _); [|done]. rewrite IH. apply perm_swap.
Qed.

Lemma sort_desc_perm {A} (l : list (list A)) : sort_desc l ≡ₚ l.
Proof.
  induction l as [|x l IH]; [done|]. unfold sort_desc in *. simpl.
  by rewrite insert_desc_perm, IH.
Qed.

Lemma insert_desc_sorted {A} (x : list A) l :
  StronglySorted longer l → StronglySorted longer (insert_desc x l).
Proof.
  induction 1 as [|y l Hl IH Hy]; simpl.
  { repeat constructor. }
  destruct (decide _) as [Hlt|Hge].
  - constructor; [done|]. rewrite insert_desc_perm.
    constructor; [unfold longer; lia|done].
  - constructor; [by constructor|].
    constructor; [unfold longer; lia|].
    eapply Forall_impl; [done|]. unfold longer. intros z ?. lia.
Qed.

Lemma sort_desc_sorted {A} (l : list (list A)) :
  StronglySorted longer (sort_desc l).
Proof.
  induction l as [|x l IH]; [constructor|]. by apply insert_desc_sorted.
Qed.

(** Stability: strands of one length keep the order they had. *)
Lemma insert_desc_stable {A} (x : list A) l n :
  filter (λ y, length y = n) (insert_desc x l) =
  filter (λ y, length y = n) (x :: l).
Proof.
  induction l as [|y l IH]; [done|]. simpl.
  destruct (decide _) as [Hlt|Hge]; [|done].
  rewrite filter_cons, IH, !filter_cons.
  repeat destruct (decide (_ = n)); try done. lia.
Qed.

Lemma sort_desc_stable {A} (l : list (list A)) n :
  filter (λ y, length y = n) (sort_desc l) = filter (λ y, length y = n) l.
Proof.
  induction l as [|x l IH]; [done|]. unfold sort_desc in *. simpl.
  by rewrite insert_desc_stable, !filter_cons, IH.
Qed.

(** ** One attempt *)

Lemma settled_init s : settled s (init s).
Proof.
  split; [|constructor]. split.
  - intros x. rewrite init_adj_lookup. by destruct (decide _); split.
  - intros x nb y. rewrite init_adj_lookup. destruct (decide _); [|done].
    intros ? Hy. simplify_eq. by apply elem_of_nil in Hy.
  - by intros x [??].
  - intros x Hx _. rewrite init_adj_lookup. by rewrite decide_True.
  - intros strand Hs. by apply elem_of_nil in Hs.
  - constructor.
  - done.
  - intros x k Hx. done.
  - intros x Hx. by apply elem_of_nil in Hx.
Qed.

Lemma settled_strands s st strand :
  settled s st → strand ∈ strands st →
  ∃ p, p ≡ₚ strand ∧ path_graph (adj st) p ∧ (2 ≤ length p)%nat.
Proof.
  intros [Hinv Hlen] Hin.
  destruct (inv_strands _ _ _ _ Hinv strand Hin) as (_ & (p & Hp & Hpg) & _).
  exists p. split_and!; [done..|].
  rewrite Forall_forall in Hlen. specialize (Hlen _ Hin). rewrite Hp. lia.
Qed.

Section attempt_facts.
Context {G : Type} `{!Random G}.

Lemma try_generating_paths_spec fuel s g paths g' :
  _try_generating_paths fuel s g = Ok (paths, g') →
  ∃ st g1 shuffled_strands g2 sel cleansed_paths g3,
    build fuel s (init s) g = Ok (st, g1) ∧ settled s st ∧
    ¬ (Z.of_nat (size (strandi st)) < r s * c s) ∧
    shuffle (strands st) g1 = (shuffled_strands, g2) ∧
    0 ≤ endcl s ∧
    sel = take (Z.to_nat (endcl s)) (sort_desc shuffled_strands) ∧
    cleanse_all fuel s (adj st) sel g2 = Ok (cleansed_paths, g3) ∧
    Forall2 (cleansed (adj st)) cleansed_paths sel ∧
    shuffled cleansed_paths g3 = (paths, g').
Proof.
  unfold _try_generating_paths.
  intros ([st g1] & Hb & Ht)%bind_Ok.
  destruct (build_preserves _ _ _ _ _ _ (settled_init s) Hb)
    as (Hst & _ & Hfull).
  pose proof (shuffle_perm (strands st) g1) as Hperm.
  destruct (shuffle (strands st) g1) as [ss g2] eqn:Hsh. simpl in Hperm.
  apply bind_Ok in Ht as (sel & Hsel & Ht).
  unfold islice, islice_check in Hsel.
  destruct (decide (0 ≤ endcl s)); [|done]. simpl in Hsel.
  injection Hsel as <-.
  apply bind_Ok in Ht as ([cp g3] & Hall & Ht). injection Ht as Ht.
  eexists st, g1, ss, g2, _, cp, g3. split_and!; try done.
  eapply cleanse_all_cleansed; [|done].
  apply Forall_forall. intros strand Hin.
  apply (settled_strands s); [done|].
  apply elem_of_take in Hin as (i & Hin & _).
  apply list_elem_of_lookup_2 in Hin.
  by rewrite sort_desc_perm, Hperm in Hin.
Qed.
End attempt_facts.

(** ** The attempt evaluator and the search *)

Lemma path_ok_true s path : path_ok s path = Ok true ↔ path_accepted s path.
Proof.
  unfold path_ok, path_accepted. destruct (decide _) as [Hl|Hl].
  - split.
    + intros (a & Ha%getitem_Ok & (b & Hb%getitem_Ok & Hd)%bind_Ok)%bind_Ok.
      injection Hd as Hd%bool_decide_eq_true. eauto 10.
    + intros (_ & a & b & -> & -> & Hd). simpl. f_equal.
      by apply bool_decide_eq_true.
  - split; [done|]. by intros [? _].
Qed.

Lemma acceptable_true s paths :
  _acceptable s paths = Ok true ↔ Forall (path_accepted s) paths.
Proof.
  induction paths as [|path paths IH]; simpl.
  { split; [constructor|done]. }
  rewrite Forall_cons, <- IH, <- path_ok_true. split.
  - intros (b & Hb & Hrest)%bind_Ok. by destruct b.
  - intros [-> ?]. done.
Qed.

Lemma acceptable_false s paths :
  Forall (λ path, path ≠ []) paths →
  _acceptable s paths = Ok false ↔ Exists (λ path, ¬ path_accepted s path) paths.
Proof.
  induction 1 as [|path paths Hne _ IH]; simpl.
  { split; [done|]. by intros ?%Exists_nil. }
  rewrite Exists_cons, <- IH, <- path_ok_true.
  assert (∃ b, path_ok s path = Ok b) as [b Hb].
  { unfold path_ok. destruct (decide _); [|eauto].
    destruct path as [|a path _] using rev_ind; [done|].
    rewrite last_snoc. destruct path; simpl; eauto. }
  rewrite Hb. simpl. destruct b.
  - split; [by right|]. by intros [?|?].
  - split; [by left|done].
Qed.

Section search_facts.
Context {G : Type} `{!Random G} {F : Type} `{!Float F}.

Lemma float_gt_asym (a b : F) :
  float_gt a b = true → float_gt b a = false.
Proof.
  intros Hab. destruct (float_gt b a) eqn:Hba; [|done].
  by rewrite <- (float_gt_irrefl a), (float_gt_trans a b a).
Qed.

Lemma max_from_spec {A} (key : A → F) l : ∀ cur,
  (max_from key cur l = cur ∧
   ∀ a, a ∈ l → float_gt (key a) (key cur) = false) ∨
  (∃ l1 l2, l = l1 ++ max_from key cur l :: l2 ∧
     float_gt (key (max_from key cur l)) (key cur) = true ∧
     (∀ a, a ∈ l1 → float_gt (key (max_from key cur l)) (key a) = true) ∧
     (∀ a, a ∈ l2 → float_gt (key a) (key (max_from key cur l)) = false)).
Proof.
  induction l as [|item l IH]; intros cur; simpl.
  { left. split; [done|]. by intros a ?%elem_of_nil. }
  destruct (float_gt (key item) (key cur)) eqn:Hgt.
  - right. destruct (IH item) as [[Hm Hall]|(l1 & l2 & Hl & Hm & H1 & H2)].
    + exists [], l. rewrite Hm. split_and!; try done.
      by intros a ?%elem_of_nil.
    + exists (item :: l1), l2. split_and!; try done.
      * by rewrite Hl at 1.
      * by eapply float_gt_trans.
      * intros a [->|?]%elem_of_cons; auto.
  - destruct (IH cur) as [[Hm Hall]|(l1 & l2 & Hl & Hm & H1 & H2)].
    + left. split; [done|]. intros a [->|?]%elem_of_cons; auto.
    + right. exists (item :: l1), l2. split_and!; try done.
      * by rewrite Hl at 1.
      * intros a [->|?]%elem_of_cons; [|auto].
        destruct (float_gt (key (max_from key cur l)) (key item)) eqn:Hma;
          [done|].
        by rewrite (float_gt_cotrans _ _ _ Hma Hgt) in Hm.
Qed.

Lemma max_by_spec {A} (key : A → F) l best :
  max_by key l = Ok best → first_max key l best.
Proof.
  destruct l as [|x l]; [done|]. simpl. intros [= <-].
  destruct (max_from_spec key l x)
    as [[Hm Hall]|(l1 & l2 & Hl & Hm & H1 & H2)].
  - exists 0%nat. rewrite Hm. split_and!; [done| |intros; lia].
    intros [|j] a Ha; simplify_eq/=; [apply float_gt_irrefl|].
    apply Hall. by eapply list_elem_of_lookup_2.
  - set (m := max_from key x l) in *.
    exists (S (length l1)). split_and!.
    + simpl. rewrite Hl. by apply list_lookup_middle.
    + intros j a Ha. apply list_elem_of_lookup_2 in Ha.
      apply elem_of_cons in Ha as [->|Ha]; [by apply float_gt_asym|].
      rewrite Hl in Ha. apply elem_of_app in Ha as [Ha|Ha].
      * by apply float_gt_asym, H1.
      * apply elem_of_cons in Ha as [->|Ha];
          [apply float_gt_irrefl|by apply H2].
    + intros [|j] a Hj Ha; simplify_eq/=; [done|].
      apply H1. rewrite Hl in Ha. rewrite lookup_app_l in Ha by lia.
      by eapply list_elem_of_lookup_2.
Qed.

Lemma next_acceptable_collects s fuel : ∀ g paths g1 n atts g2,
  next_acceptable fuel s g = Ok (paths, g1) →
  collects s n g1 atts g2 →
  collects s (S n) g (paths :: atts) g2.
Proof.
  induction fuel as [|fuel IH]; intros g paths g1 n atts g2 Hn Hc; [done|].
  simpl in Hn. apply bind_Ok in Hn as ([paths0 g0] & Htry & Hn).
  apply bind_Ok in Hn as (ok & Hok & Hn). destruct ok.
  - simplify_eq. by eapply collects_accept.
  - eapply collects_reject; [done..|]. by eapply IH.
Qed.

Lemma take_acceptable_collects s fuel : ∀ n g atts g',
  take_acceptable n fuel s g = Ok (atts, g') → collects s n g atts g'.
Proof.
  induction n as [|n IH]; intros g atts g' Ht; simpl in Ht.
  { simplify_eq. constructor. }
  apply bind_Ok in Ht as ([paths g1] & Hnext & Ht).
  apply bind_Ok in Ht as ([rest g2] & Hrest & Ht). simplify_eq.
  eapply next_acceptable_collects; [done|]. by apply IH.
Qed.

Lemma collects_length s n g atts g' :
  collects s n g atts g' → length atts = n.
Proof. induction 1; simpl; auto. Qed.

Lemma collects_attempt s n g atts g' paths :
  collects s n g atts g' → paths ∈ atts →
  _acceptable s paths = Ok true ∧
  ∃ fuel g0 g1, _try_generating_paths fuel s g0 = Ok (paths, g1).
Proof.
  induction 1 as [|n fuel g p g1 atts g2 Htry Hok _ IH|]; intros Hin.
  - by apply elem_of_nil in Hin.
  - apply elem_of_cons in Hin as [->|Hin]; eauto.
  - auto.
Qed.

Lemma generate_paths_spec s fuel g best g' :
  generate_paths (F:=F) fuel s g = Ok (best, g') →
  ∃ atts, 1 ≤ attemptc s ∧
    collects s (Z.to_nat (attemptc s)) g atts g' ∧
    first_max _quality atts best.
Proof.
  unfold generate_paths. intros (n & Hn & Hg)%bind_Ok.
  unfold islice_check in Hn. destruct (decide _); [|done].
  injection Hn as <-.
  apply bind_Ok in Hg as ([atts g1] & Htake & Hg).
  apply bind_Ok in Hg as (best' & Hmax & Hg). simplify_eq.
  apply take_acceptable_collects in Htake.
  exists atts. split_and!; [|done|by apply max_by_spec].
  apply collects_length in Htake. destruct atts; [done|].
  simpl in Htake. lia.
Qed.

Lemma generate_paths_attempt s fuel g best g' :
  generate_paths (F:=F) fuel s g = Ok (best, g') →
  _acceptable s best = Ok true ∧
  ∃ fuel0 g0 g1, _try_generating_paths fuel0 s g0 = Ok (best, g1).
Proof.
  intros (atts & _ & Hc & i & Hi & _)%generate_paths_spec.
  eapply collects_attempt; [done|]. by eapply list_elem_of_lookup_2.
Qed.
End search_facts.

(** ** The states of one run of the strand builder *)

Section run.
Context {G : Type} `{!Random G}.

Lemma step_inv s x y :
  step s x y → state_inv s x →
  state_inv s y ∧ strandi x.1 ⊆ strandi y.1.
Proof.
  destruct 1 as [st g l g1 Hlt Hsh|st old seeds g st' seeds' g' Hstep|st old];
    unfold state_inv; simpl.
  - intros [Hinv _].
    pose proof (shuffled_perm (free s (strandi st)) g) as Hperm.
    unfold free in Hperm. rewrite Hsh in Hperm. simpl in Hperm.
    pose proof (slice_to_sublist (endcl s) l) as Hsub.
    destruct (plant_all_inv s (strandi st) (slice_to (endcl s) l) st []
      Hinv) as (Hinv1 & Hsub1 & _).
    { eapply sublist_NoDup; [|done]. rewrite Hperm.
      apply NoDup_filter, NoDup_grid. }
    { intros x Hx. eapply elem_of_sublist in Hx; [|done].
      rewrite Hperm in Hx. by apply list_elem_of_filter in Hx as [? ?]. }
    by rewrite app_nil_r in Hinv1.
  - intros Hinv. destruct seeds as [|x0 seeds0]; [done|].
    destruct (grow_step_inv s old st (x0 :: seeds0) g Hinv)
      as (st1 & seeds1 & g1 & Hstep1 & Hinv1 & _ & _ & Hsub); [done|].
    rewrite Hstep1 in Hstep. by simplify_eq.
  - intros Hinv. split; [by eapply prune_inv|done].
Qed.

Lemma steps_inv s x y :
  rtc (step s) x y → state_inv s x →
  state_inv s y ∧ strandi x.1 ⊆ strandi y.1.
Proof.
  induction 1 as [|x y z Hstep _ IH]; intros Hx; [done|].
  destruct (step_inv s x y Hstep Hx) as [Hy ?].
  destruct (IH Hy) as [? ?]. split; [done|by etrans].
Qed.

(** The loops of the builder go through these states. *)
Lemma grow_steps s old fuel : ∀ st seeds g st' g',
  grow fuel s st seeds g = Ok (st', g') →
  rtc (step s) (st, Growing old seeds) (st', Growing old []).
Proof.
  induction fuel as [|fuel IH]; intros st seeds g st' g' Hg;
    (destruct seeds as [|x0 seeds0];
      [simpl in Hg; simplify_eq; apply rtc_refl|]); [done|].
  simpl in Hg. apply bind_Ok in Hg as ([[st1 seeds1] g1] & Hstep & Hg).
  eapply rtc_l; [by eapply step_grow|]. by eapply IH.
Qed.

Lemma build_steps s fuel : ∀ st g st' g',
  build fuel s st g = Ok (st', g') →
  rtc (step s) (st, Between) (st', Between).
Proof.
  induction fuel as [|fuel IH]; intros st g st' g' Hb; simpl in Hb;
    (destruct (decide _) as [Hlt|];
      [|simplify_eq; apply rtc_refl]); [done|].
  apply bind_Ok in Hb as ([st1 g1] & Hround & Hb).
  etrans; [|by eapply IH].
  unfold round in Hround.
  destruct (shuffled _ g) as [l g0] eqn:Hsh.
  apply bind_Ok in Hround as ([st2 g2] & Hgrow & Hround).
  simplify_eq.
  eapply rtc_l; [by eapply step_seed|].
  etrans; [by eapply grow_steps|].
  apply rtc_once, step_prune.
Qed.
End run.

(** ** The paths of an attempt *)

Lemma segment_sublist path q : segment path q → path `sublist_of` q.
Proof.
  intros (l1 & l2 & ->). apply sublist_inserts_l, sublist_inserts_r.
  reflexivity.
Qed.

Lemma cleansed_submseteq adj path strand :
  cleansed adj path strand → path ⊆+ strand.
Proof.
  intros (q & Hq & _ & Hseg). rewrite <- Hq.
  by apply sublist_submseteq, segment_sublist.
Qed.

Lemma concat_submseteq {A} (ps ss : list (list A)) :
  Forall2 submseteq ps ss → concat ps ⊆+ concat ss.
Proof. induction 1; simpl; [done|]. by apply submseteq_app. Qed.

Lemma concat_perm {A} (ps qs : list (list A)) :
  ps ≡ₚ qs → concat ps ≡ₚ concat qs.
Proof.
  induction 1 as [|x l l' _ IH|x y l|l l' l'' _ IH1 _ IH2]; simpl.
  - done.
  - by rewrite IH.
  - rewrite !app_assoc. f_equiv. apply Permutation_app_comm.
  - by etrans.
Qed.

Lemma concat_sublist {A} (ps qs : list (list A)) :
  ps `sublist_of` qs → concat ps `sublist_of` concat qs.
Proof.
  induction 1; simpl; [done| |].
  - by apply sublist_app.
  - by apply sublist_inserts_l.
Qed.

Lemma submseteq_NoDup {A} (l k : list A) : l ⊆+ k → NoDup k → NoDup l.
Proof.
  intros (k' & Hk)%submseteq_Permutation Hnd. rewrite Hk in Hnd.
  by apply NoDup_app in Hnd as (? & _ & _).
Qed.

Lemma cleansed_path s st path strand :
  settled s st → strand ∈ strands st → cleansed (adj st) path strand →
  NoDup path ∧
  (∀ x, x ∈ path → x ∈ grid s) ∧
  (∀ l1 x y l2, path = l1 ++ x :: y :: l2 → cardinal x y).
Proof.
  intros [Hinv _] Hin (q & Hq & [Hnd Hadj] & (k1 & k2 & ->)).
  destruct (inv_strands _ _ _ _ Hinv strand Hin) as (_ & _ & Has).
  split_and!.
  - apply NoDup_app in Hnd as (_ & _ & Hnd).
    by apply NoDup_app in Hnd as (? & _ & _).
  - intros x Hx. apply (inv_strandi_dom _ _ _ _ Hinv), Has.
    rewrite <- Hq. rewrite !elem_of_app. auto.
  - intros l1 x y l2 ->.
    destruct (Hadj (k1 ++ l1) x (y :: l2 ++ k2)) as (nb & Hnb & Hperm).
    { by rewrite <- !app_assoc. }
    apply (inv_edges _ _ _ _ Hinv x nb y Hnb).
    rewrite Hperm. unfold nbrs. apply elem_of_app. right. left.
Qed.

Section attempt_paths.
Context {G : Type} `{!Random G}.

Lemma try_generating_paths_paths fuel s g paths g' :
  _try_generating_paths fuel s g = Ok (paths, g') →
  Z.of_nat (length paths) ≤ endcl s ∧
  NoDup (concat paths) ∧
  ∃ st, settled s st ∧
    ∀ path, path ∈ paths →
      ∃ strand, strand ∈ strands st ∧ cleansed (adj st) path strand.
Proof.
  intros (st & g1 & ss & g2 & sel & cp & g3 & Hb & Hst & _ & Hsh & Hendcl
          & Hsel & Hall & Hcl & Hpaths)%try_generating_paths_spec.
  pose proof (shuffle_perm (strands st) g1) as Hperm.
  rewrite Hsh in Hperm. simpl in Hperm.
  pose proof (shuffled_perm cp g3) as Hperm'.
  rewrite Hpaths in Hperm'. simpl in Hperm'.
  assert (sel `sublist_of` sort_desc ss) as Hsub
    by (rewrite Hsel; apply sublist_take).
  split_and!.
  - rewrite Hperm', (Forall2_length _ _ _ Hcl), Hsel, length_take. lia.
  - rewrite (concat_perm _ _ Hperm').
    eapply submseteq_NoDup.
    { apply concat_submseteq. eapply Forall2_impl; [done|].
      apply cleansed_submseteq. }
    eapply sublist_NoDup; [|by apply concat_sublist].
    rewrite (concat_perm _ _ (sort_desc_perm ss)), (concat_perm _ _ Hperm).
    apply (inv_disjoint _ _ _ _ (proj1 Hst)).
  - exists st. split; [done|]. intros path Hin. rewrite Hperm' in Hin.
    apply list_elem_of_lookup in Hin as [i Hi].
    destruct (Forall2_lookup_l _ _ _ _ _ Hcl Hi) as (strand & Hs & Hc).
    exists strand. split; [|done].
    apply list_elem_of_lookup_2 in Hs.
    eapply elem_of_sublist in Hs; [|done].
    by rewrite sort_desc_perm, Hperm in Hs.
Qed.
End attempt_paths.

(** * The claims of the specification *)

Section claims.
Context {G : Type} `{!Random G} {F : Type} `{!Float F}.

(** C1: a list of paths returned by [generate_paths] holds at most
    [settings.endcl] paths, and no cell occurs in two paths at distinct
    positions of the list. *)
Theorem generate_paths_count_disjoint fuel s (g : G) paths g' :
  generate_paths (F:=F) fuel s g = Ok (paths, g') →
  Z.of_nat (length paths) ≤ endcl s ∧
  ∀ i j p q x, i ≠ j → paths !! i = Some p → paths !! j = Some q →
               x ∈ p → x ∉ q.
Proof.
  intros (_ & fuel0 & g0 & g1 & Htry)%generate_paths_attempt.
  destruct (try_generating_paths_paths _ _ _ _ _ Htry) as (Hlen & Hnd & _).
  split; [done|]. intros i j p q x Hij Hp Hq.
  by eapply NoDup_concat_lookup.
Qed.


(** C3, as the code has it: [cleanse] walks the strand from one end [a]
    to the other end [b]; the walked sequence starts with [a] twice, so it
    has L + 1 entries and the trim bound is [min(L + 1 - distl, 2)].  A
    positive bound makes [randint(0, bound)] the trim amount [t], otherwise
    nothing is drawn and nothing is trimmed.  Each unit of trim removes the
    front cell when [randrange(2)] is not zero and the back cell otherwise,
    and the final [popleft] removes the duplicate of [a]: the result is the
    walk [w] of the L cells trimmed by [t] units, a run of L - t
    consecutive cells of [w]. *)
Theorem cleanse_trims_walk (fuel : nat) (s : DifficultySettings)
    (adj : gmap cell (list cell))
    (strand p : list cell) (g : G) :
  p ≡ₚ strand → path_graph adj p →
  (2 ≤ length strand)%nat → (length strand ≤ fuel + 1)%nat →
  ∃ w a b t g1 path g',
    cleanse fuel s adj strand g = Ok (path, g') ∧
    (w = p ∨ w = reverse p) ∧
    ends adj strand = Ok [a; b] ∧
    walk fuel adj b [a; a] = Ok (a :: w) ∧
    trim_bound s (a :: w) =
      Z.min (Z.of_nat (length strand) + 1 - distl s) 2 ∧
    (0 < trim_bound s (a :: w) →
     randint 0 (trim_bound s (a :: w)) g = Ok (Z.of_nat t, g1) ∧
     Z.of_nat t ≤ trim_bound s (a :: w)) ∧
    (trim_bound s (a :: w) ≤ 0 → t = 0%nat ∧ g1 = g) ∧
    trim t w g1 = Ok (path, g') ∧
    segment path w ∧
    (length path + t)%nat = length strand.
Proof.
  intros Hperm Hp Hlen Hfuel. rewrite <- Hperm in Hlen, Hfuel.
  destruct (ends_path adj strand p Hperm Hp Hlen)
    as (w & a & mid & b & Hw & Heq & Hab & Hends).
  assert (path_graph adj w ∧ length w = length p) as [Hpw Hlw].
  { destruct Hw as [-> | ->]; [done|].
    split; [by apply path_graph_rev|apply length_reverse]. }
  assert (length w = (length mid + 2)%nat) as Hlw'.
  { rewrite Heq. simpl. rewrite length_app. simpl. lia. }
  assert (walk fuel adj b [a; a] = Ok (a :: w)) as Hwalk.
  { rewrite Heq. apply walk_whole; [by rewrite <- Heq|lia]. }
  assert (trim_bound s (a :: w) =
          Z.min (Z.of_nat (length strand) + 1 - distl s) 2) as Hbound.
  { unfold trim_bound. simpl length. rewrite Hlw, Hperm. lia. }
  assert (∃ tz g1, trim_count s (a :: w) g = Ok (tz, g1) ∧
            (Z.to_nat tz ≤ 2)%nat ∧
            (0 < trim_bound s (a :: w) →
             randint 0 (trim_bound s (a :: w)) g
               = Ok (Z.of_nat (Z.to_nat tz), g1) ∧
             Z.of_nat (Z.to_nat tz) ≤ trim_bound s (a :: w)) ∧
            (trim_bound s (a :: w) ≤ 0 → Z.to_nat tz = 0%nat ∧ g1 = g))
    as (tz & g1 & Hcount & Ht2 & Hpos & Hneg).
  { unfold trim_count.
    destruct (decide (0 < trim_bound s (a :: w))) as [Hb|Hb].
    - destruct (randint_Ok 0 (trim_bound s (a :: w)) g)
        as (k & g1 & Hk & Hk'); [lia|].
      exists k, g1. rewrite Z2Nat.id by lia.
      split_and!.
      + done.
      + unfold trim_bound in Hk'. lia.
      + intros _. split; [done|lia].
      + lia.
    - eexists _, _. split_and!; [done|lia|lia|].
      intros _. split; [lia|done]. }
  destruct (trim_segment (Z.to_nat tz) w g1)
    as (path & g' & Htrim & Hseg & Hlpath); [lia|].
  exists w, a, b, (Z.to_nat tz), g1, path, g'.
  split_and!; try done; [|rewrite <- Hperm; lia].
  unfold cleanse. rewrite Hends. simpl. rewrite Hwalk. simpl.
  rewrite Hcount. simpl.
  rewrite <- Htrim. apply trim_sentinel. lia.
Qed.

Lemma next_acceptable_accepted s fuel : ∀ (g : G) paths g',
  next_acceptable fuel s g = Ok (paths, g') → _acceptable s paths = Ok true.
Proof.
  induction fuel as [|fuel IH]; intros g paths g' Hn; [done|].
  simpl in Hn. apply bind_Ok in Hn as ([paths0 g0] & Htry & Hn).
  apply bind_Ok in Hn as (ok & Hok & Hn). destruct ok; [|by eapply IH].
  by simplify_eq.
Qed.

(** C4: [_acceptable] answers [True] exactly when every path of the
    attempt is long enough and has its two ends far enough apart; one
    path that fails a test rejects the attempt; and an attempt that the
    generator yields passes both tests on every path. *)
Theorem acceptable_iff_every_path (fuel : nat) (s : DifficultySettings)
    (g : G) :
  (∀ paths,
     _acceptable s paths = Ok true ↔ Forall (path_accepted s) paths) ∧
  (∀ paths,
     Exists (λ path, ¬ path_accepted s path) paths →
     _acceptable s paths ≠ Ok true ∧
     (Forall (λ path, path ≠ []) paths → _acceptable s paths = Ok false)) ∧
  (∀ paths g',
     next_acceptable fuel s g = Ok (paths, g') →
     Forall (path_accepted s) paths).
Proof.
  split_and!.
  - intros paths. apply acceptable_true.
  - intros paths Hex. split.
    + rewrite acceptable_true. intros Hall.
      apply Exists_exists in Hex as (path & Hin & Hno).
      rewrite Forall_forall in Hall. auto.
    + intros Hne. by apply acceptable_false.
  - intros paths g' Hn. apply acceptable_true.
    by eapply next_acceptable_accepted.
Qed.

(** C5: in the state the strand builder ends in, the adjacency lists of
    the cells of a strand of two or more cells form a simple path graph:
    no cell has more than two neighbours, exactly two cells [a] and [b]
    have one, and the walk of [cleanse] from either of them ends at the
    other one after visiting every cell of the strand once. *)
Theorem strand_is_path_graph (fuel : nat) (s : DifficultySettings) (g : G)
    (st : builder) (g' : G) (strand : list cell) :
  build fuel s (init s) g = Ok (st, g') →
  strand ∈ strands st → (2 ≤ length strand)%nat →
  (∀ x, x ∈ strand → (degree (adj st) x ≤ 2)%nat) ∧
  ∃ a b w,
    a ≠ b ∧
    filter (λ x, degree (adj st) x = 1%nat) strand ≡ₚ [a; b] ∧
    w ≡ₚ strand ∧ NoDup w ∧ head w = Some a ∧ last w = Some b ∧
    ∀ n, (length strand ≤ n + 1)%nat →
      walk n (adj st) b [a; a] = Ok (a :: w) ∧
      walk n (adj st) a [b; b] = Ok (b :: reverse w).
Proof.
  intros Hb Hin Hlen.
  destruct (build_preserves _ _ _ _ _ _ (settled_init s) Hb) as (Hst & _).
  destruct (settled_strands s st strand Hst Hin) as (p & Hperm & Hp & Hlp).
  split.
  { intros x Hx. rewrite <- Hperm in Hx.
    apply list_elem_of_split in Hx as (l1 & l2 & ->).
    rewrite (path_graph_degree' _ _ _ _ Hp). destruct l1, l2; simpl; lia. }
  destruct (path_graph_ends _ p Hp Hlp) as (a & mid & b & Heq & Hab & Hf).
  exists a, b, p. split_and!; try done.
  - by rewrite <- Hperm, Hf.
  - by destruct Hp.
  - by rewrite Heq.
  - rewrite Heq, last_cons. by rewrite last_snoc.
  - intros n Hn. rewrite <- Hperm, Heq in Hn. simpl in Hn.
    rewrite length_app in Hn. simpl in Hn. split.
    + rewrite Heq. apply walk_whole; [by rewrite <- Heq|lia].
    + apply path_graph_rev in Hp.
      rewrite Heq, reverse_cons, reverse_app in *. simpl in *.
      apply walk_whole; [done|]. rewrite length_reverse. lia.
Qed.

(** C6: for [r >= 1], [c >= 1] and [endcl >= 1] the strand-building loop
    ends (2 * r * c + 1 units of fuel are enough), and then each of the
    r * c cells of the grid, and nothing else, has a strand index.  Every
    round that the loop enters assigns at least one more cell. *)
Theorem build_terminates_covering (s : DifficultySettings) (g : G)
    (fuel : nat) :
  1 ≤ r s → 1 ≤ c s → 1 ≤ endcl s →
  (2 * Z.to_nat (r s * c s) + 1 ≤ fuel)%nat →
  (∃ st g',
     build fuel s (init s) g = Ok (st, g') ∧
     Z.of_nat (size (strandi st)) = r s * c s ∧
     ∀ i j, is_Some (strandi st !! (i, j)) ↔ 0 ≤ i < r s ∧ 0 ≤ j < c s) ∧
  (∀ st n g0 st1 g1,
     rtc (step (G:=G) s) (init s, Between) (st, Between) →
     Z.of_nat (size (strandi st)) < r s * c s →
     round n s st g0 = Ok (st1, g1) →
     (size (strandi st) < size (strandi st1))%nat).
Proof.
  intros Hr Hc Hendcl Hfuel.
  assert (0 < r s * c s) as Hpos by nia.
  assert (length (grid s) = Z.to_nat (r s * c s)) as Hgrid.
  { rewrite length_grid. lia. }
  split.
  - destruct (build_total s fuel (init s) g (settled_init s))
      as (st & g' & Hb); [lia..| |].
    { simpl. pose proof (size_free s ∅) as Hsz.
      rewrite map_size_empty in Hsz. rewrite <- Hsz in Hgrid; [lia|].
      by intros x [??]. }
    destruct (build_preserves _ _ _ _ _ _ (settled_init s) Hb)
      as ([Hinv _] & _ & Hfull).
    pose proof (size_free s (strandi st) (inv_strandi_dom _ _ _ _ Hinv))
      as Hsz.
    exists st, g'. split; [done|].
    assert (free s (strandi st) = []) as Hfree.
    { apply length_zero_iff_nil. lia. }
    split; [rewrite Hfree in Hsz; simpl in Hsz; lia|].
    intros i j. rewrite <- elem_of_grid. split.
    + apply (inv_strandi_dom _ _ _ _ Hinv).
    + intros Hg. destruct (strandi st !! (i, j)) eqn:Hl; [eauto|].
      assert ((i, j) ∈ free s (strandi st)) as Hin
        by (by apply list_elem_of_filter).
      rewrite Hfree in Hin. by apply elem_of_nil in Hin.
  - intros st n g0 st1 g1 Hreach Hlt Hround.
    destruct (steps_inv s _ _ Hreach (settled_init s)) as [Hst _].
    simpl in Hst. pose proof Hst as [Hinv _].
    destruct (round_preserves _ _ _ _ _ _ Hst Hround)
      as ([Hinv1 _] & _ & Hprog).
    pose proof (size_free s (strandi st) (inv_strandi_dom _ _ _ _ Hinv))
      as Hsz.
    pose proof (size_free s (strandi st1) (inv_strandi_dom _ _ _ _ Hinv1))
      as Hsz1.
    assert (free s (strandi st) ≠ []) as Hfree.
    { intros Hnil. rewrite Hnil in Hsz. simpl in Hsz. lia. }
    specialize (Hprog Hendcl Hfree). simpl in Hprog. lia.
Qed.

(** C7, as the code has it: along a run of the strand builder an entry of
    the strand-index mapping, once made, keeps its value; and while a
    round is growing, the value stored for a cell that this round has
    assigned is the position of the strand that holds the cell.  (The
    pruning at the end of a round moves strands to other positions and
    leaves the stored values as they are.) *)
Theorem strand_index_kept (s : DifficultySettings) (st : builder)
    (ph : phase) (st' : builder) (ph' : phase) :
  rtc (step (G:=G) s) (init s, Between) (st, ph) →
  rtc (step (G:=G) s) (st, ph) (st', ph') →
  strandi st ⊆ strandi st' ∧
  ∀ old seeds, ph = Growing old seeds →
    ∀ x k, strandi st !! x = Some k → old !! x = None →
      ∃ strand, strands st !! k = Some strand ∧ x ∈ strand.
Proof.
  intros Hreach Hsteps.
  destruct (steps_inv s _ _ Hreach (settled_init s)) as [Hst _].
  destruct (steps_inv s _ _ Hsteps Hst) as [_ Hsub].
  split; [done|]. intros old seeds -> x k Hx Hold.
  by eapply (inv_new _ _ _ _ Hst).
Qed.

(** C8: an attempt cleanses the first [settings.endcl] strands, all of
    them if there are fewer, of the list obtained from the builder's
    strands by a shuffle followed by a stable sort on descending length,
    so no strand left out is longer than a cleansed one; the list of paths
    returned is a shuffle of the cleansed ones. *)
Theorem attempt_cleanses_longest (fuel : nat) (s : DifficultySettings)
    (g : G) (paths : list (list cell)) (g' : G) :
  _try_generating_paths fuel s g = Ok (paths, g') →
  ∃ st g1 shuffled_strands g2 cleansed_paths g3,
    build fuel s (init s) g = Ok (st, g1) ∧
    shuffle (strands st) g1 = (shuffled_strands, g2) ∧
    shuffled_strands ≡ₚ strands st ∧
    let sorted := sort_desc shuffled_strands in
    let sel := take (Z.to_nat (endcl s)) sorted in
    sorted ≡ₚ shuffled_strands ∧
    StronglySorted longer sorted ∧
    (∀ n, filter (λ strand, length strand = n) sorted =
          filter (λ strand, length strand = n) shuffled_strands) ∧
    0 ≤ endcl s ∧
    length sel = (Z.to_nat (endcl s) `min` length (strands st))%nat ∧
    (∀ a b, a ∈ sel → b ∈ drop (Z.to_nat (endcl s)) sorted →
            (length b ≤ length a)%nat) ∧
    cleanse_all fuel s (adj st) sel g2 = Ok (cleansed_paths, g3) ∧
    Forall2 (cleansed (adj st)) cleansed_paths sel ∧
    shuffled cleansed_paths g3 = (paths, g') ∧
    paths ≡ₚ cleansed_paths.
Proof.
  intros (st & g1 & ss & g2 & sel & cp & g3 & Hb & Hst & _ & Hsh & Hendcl
          & Hsel & Hall & Hcl & Hpaths)%try_generating_paths_spec.
  pose proof (shuffle_perm (strands st) g1) as Hperm.
  rewrite Hsh in Hperm. simpl in Hperm.
  pose proof (shuffled_perm cp g3) as Hperm'.
  rewrite Hpaths in Hperm'. simpl in Hperm'.
  exists st, g1, ss, g2, cp, g3. simpl. rewrite <- Hsel.
  split_and!; try done.
  - apply sort_desc_perm.
  - apply sort_desc_sorted.
  - intros n. apply sort_desc_stable.
  - rewrite Hsel, length_take, sort_desc_perm, Hperm. done.
  - intros a b Ha Hb'. rewrite Hsel in Ha.
    pose proof (sort_desc_sorted ss) as Hsorted.
    rewrite <- (take_drop (Z.to_nat (endcl s)) (sort_desc ss)) in Hsorted.
    by eapply (StronglySorted_app_1_elem_of longer).
Qed.


(** C10: a path returned by [generate_paths] has no cell twice, lies
    inside the grid, and goes from each cell to the next by one of the
    four steps of [DIJS]. *)
Theorem generate_paths_simple_paths (fuel : nat) (s : DifficultySettings)
    (g : G) (paths : list (list cell)) (g' : G) :
  generate_paths (F:=F) fuel s g = Ok (paths, g') →
  ∀ path, path ∈ paths →
    NoDup path ∧
    (∀ i j, (i, j) ∈ path → 0 ≤ i < r s ∧ 0 ≤ j < c s) ∧
    (∀ k x y, path !! k = Some x → path !! S k = Some y →
              (y.1 - x.1, y.2 - x.2) ∈ DIJS).
Proof.
  intros (_ & fuel0 & g0 & g1 & Htry)%generate_paths_attempt path Hin.
  destruct (try_generating_paths_paths _ _ _ _ _ Htry)
    as (_ & _ & st & Hst & Hpaths).
  destruct (Hpaths path Hin) as (strand & Hs & Hcl).
  destruct (cleansed_path s st path strand Hst Hs Hcl)
    as (Hnd & Hgrid & Hchain).
  split_and!; [done| |].
  - intros i j Hij. by apply elem_of_grid, Hgrid.
  - intros k x y Hx Hy.
    apply (Hchain (take k path) x y (drop (S (S k)) path)).
    rewrite <- (drop_S path y (S k) Hy).
    symmetry. by apply take_drop_middle.
Qed.
End claims.

(** ** The claims on concrete runs *)

Lemma path_graph_pair : path_graph pair_adj pair_strand.
Proof.
  split.
  { unfold pair_strand. apply NoDup_cons. split; [|apply NoDup_singleton].
    by intros ?%list_elem_of_singleton. }
  intros l1 x l2 Heq. unfold pair_strand in Heq.
  destruct l1 as [|a [|b l1]]; simplify_eq/=.
  - by exists [(0, 1)].
  - by exists [(0, 0)].
  - by destruct l1.
Qed.

Lemma generate_paths_count_disjoint_witness :
  generate_paths (F:=Z) 60 trivial ([] : list nat) = Ok (trivial_paths, []) ∧
  Z.of_nat (length trivial_paths) ≤ endcl trivial ∧
  ∀ i j p q x, i ≠ j → trivial_paths !! i = Some p →
    trivial_paths !! j = Some q → x ∈ p → x ∉ q.
Proof.
  assert (generate_paths (F:=Z) 60 trivial ([] : list nat)
          = Ok (trivial_paths, [])) as Hrun by (vm_compute; reflexivity).
  split; [exact Hrun|].
  exact (generate_paths_count_disjoint 60 trivial [] trivial_paths [] Hrun).
Defined.


Lemma cleanse_trims_walk_witness :
  ∃ w a b t g1 path g',
    cleanse 5 trivial pair_adj pair_strand ([] : list nat) = Ok (path, g') ∧
    (w = pair_strand ∨ w = reverse pair_strand) ∧
    ends pair_adj pair_strand = Ok [a; b] ∧
    walk 5 pair_adj b [a; a] = Ok (a :: w) ∧
    trim_bound trivial (a :: w) =
      Z.min (Z.of_nat (length pair_strand) + 1 - distl trivial) 2 ∧
    (0 < trim_bound trivial (a :: w) →
     randint 0 (trim_bound trivial (a :: w)) [] = Ok (Z.of_nat t, g1) ∧
     Z.of_nat t ≤ trim_bound trivial (a :: w)) ∧
    (trim_bound trivial (a :: w) ≤ 0 → t = 0%nat ∧ g1 = []) ∧
    trim t w g1 = Ok (path, g') ∧
    segment path w ∧
    (length path + t)%nat = length pair_strand.
Proof.
  apply (cleanse_trims_walk 5 trivial pair_adj pair_strand pair_strand []).
  - reflexivity.
  - exact path_graph_pair.
  - simpl. lia.
  - simpl. lia.
Defined.

Lemma cleanse_keeps_whole_strand :
  cleanse 5 trivial pair_adj pair_strand ([] : list nat)
    = Ok (pair_strand, []) ∧
  ¬ cleanse_length_as_specified trivial pair_strand pair_strand.
Proof.
  split; [vm_compute; reflexivity|].
  intros (t & Ht & Hlen). simpl in *. lia.
Qed.

Lemma acceptable_iff_every_path_witness :
  next_acceptable 60 trivial ([] : list nat) = Ok (trivial_paths, []) ∧
  Forall (path_accepted trivial) trivial_paths.
Proof.
  assert (next_acceptable 60 trivial ([] : list nat)
          = Ok (trivial_paths, [])) as Hrun by (vm_compute; reflexivity).
  split; [exact Hrun|].
  exact (proj2 (proj2 (acceptable_iff_every_path 60 trivial []))
           trivial_paths [] Hrun).
Defined.

Lemma strand_is_path_graph_witness :
  (∀ x, x ∈ [(0, 2); (0, 1)] → (degree (adj row3_final) x ≤ 2)%nat) ∧
  ∃ a b w,
    a ≠ b ∧
    filter (λ x, degree (adj row3_final) x = 1%nat) [(0, 2); (0, 1)]
      ≡ₚ [a; b] ∧
    w ≡ₚ [(0, 2); (0, 1)] ∧ NoDup w ∧ head w = Some a ∧ last w = Some b ∧
    ∀ n, (length [(0, 2); (0, 1)] ≤ n + 1)%nat →
      walk n (adj row3_final) b [a; a] = Ok (a :: w) ∧
      walk n (adj row3_final) a [b; b] = Ok (b :: reverse w).
Proof.
  apply (strand_is_path_graph 7 row3 row3_tape row3_final []).
  - vm_compute. reflexivity.
  - vm_compute. left.
  - simpl. lia.
Defined.

Lemma build_terminates_covering_witness :
  (∃ st g',
     build 7 row3 (init row3) ([] : list nat) = Ok (st, g') ∧
     Z.of_nat (size (strandi st)) = r row3 * c row3 ∧
     ∀ i j, is_Some (strandi st !! (i, j)) ↔
            0 ≤ i < r row3 ∧ 0 ≤ j < c row3) ∧
  (∀ st n g0 st1 g1,
     rtc (step (G:=list nat) row3) (init row3, Between) (st, Between) →
     Z.of_nat (size (strandi st)) < r row3 * c row3 →
     round n row3 st g0 = Ok (st1, g1) →
     (size (strandi st) < size (strandi st1))%nat).
Proof.
  apply (build_terminates_covering row3 [] 7); simpl; lia.
Defined.

Lemma strand_index_kept_witness :
  strandi row3_seeded ⊆ strandi row3_final ∧
  ∀ old sd,
    Growing (strandi (init row3)) (row3_seeds ++ row3_seeds) = Growing old sd →
    ∀ x k, strandi row3_seeded !! x = Some k → old !! x = None →
      ∃ strand, strands row3_seeded !! k = Some strand ∧ x ∈ strand.
Proof.
  assert (rtc (step (G:=list nat) row3) (init row3, Between)
            (row3_seeded,
             Growing (strandi (init row3)) (row3_seeds ++ row3_seeds)))
    as Hseed.
  { apply rtc_once.
    apply (step_seed row3 (init row3) row3_tape
             [(0, 0); (0, 2); (0, 1)] [1%nat]).
    - vm_compute. reflexivity.
    - vm_compute. reflexivity. }
  apply (strand_index_kept row3 _ _ row3_final Between Hseed).
  etrans.
  - apply (grow_steps row3 (strandi (init row3)) 6 row3_seeded
             (row3_seeds ++ row3_seeds) [1%nat] row3_grown []).
    vm_compute. reflexivity.
  - apply rtc_once.
    exact (step_prune row3 row3_grown (strandi (init row3))).
Defined.

Lemma strand_index_not_owner :
  build 7 row3 (init row3) row3_tape = Ok (row3_final, []) ∧
  ¬ index_of_owner row3_final.
Proof.
  split; [vm_compute; reflexivity|].
  intros Hidx. destruct (Hidx (0, 2) 1%nat) as (strand & Hs & _).
  - vm_compute. reflexivity.
  - vm_compute in Hs. discriminate Hs.
Qed.

Lemma attempt_cleanses_longest_witness :
  ∃ st g1 shuffled_strands g2 cleansed_paths g3,
    build 7 row3 (init row3) row3_tape = Ok (st, g1) ∧
    shuffle (strands st) g1 = (shuffled_strands, g2) ∧
    shuffled_strands ≡ₚ strands st ∧
    let sorted := sort_desc shuffled_strands in
    let sel := take (Z.to_nat (endcl row3)) sorted in
    sorted ≡ₚ shuffled_strands ∧
    StronglySorted longer sorted ∧
    (∀ n, filter (λ strand, length strand = n) sorted =
          filter (λ strand, length strand = n) shuffled_strands) ∧
    0 ≤ endcl row3 ∧
    length sel = (Z.to_nat (endcl row3) `min` length (strands st))%nat ∧
    (∀ a b, a ∈ sel → b ∈ drop (Z.to_nat (endcl row3)) sorted →
            (length b ≤ length a)%nat) ∧
    cleanse_all 7 row3 (adj st) sel g2 = Ok (cleansed_paths, g3) ∧
    Forall2 (cleansed (adj st)) cleansed_paths sel ∧
    shuffled cleansed_paths g3 = ([[(0, 2); (0, 1)]], []) ∧
    [[(0, 2); (0, 1)]] ≡ₚ cleansed_paths.
Proof.
  apply (attempt_cleanses_longest 7 row3 row3_tape [[(0, 2); (0, 1)]] []).
  vm_compute. reflexivity.
Defined.


Lemma generate_paths_simple_paths_witness :
  generate_paths (F:=Z) 60 trivial ([] : list nat) = Ok (trivial_paths, []) ∧
  ∀ path, path ∈ trivial_paths →
    NoDup path ∧
    (∀ i j, (i, j) ∈ path → 0 ≤ i < r trivial ∧ 0 ≤ j < c trivial) ∧
    (∀ k x y, path !! k = Some x → path !! S k = Some y →
              (y.1 - x.1, y.2 - x.2) ∈ DIJS).
Proof.
  assert (generate_paths (F:=Z) 60 trivial ([] : list nat)
          = Ok (trivial_paths, [])) as Hrun by (vm_compute; reflexivity).
  split; [exact Hrun|].
  exact (generate_paths_simple_paths (F:=Z) 60 trivial [] trivial_paths []
           Hrun).
Defined.

(** * Further properties of the generator *)

Lemma cardinal_dist (x y : cell) : cardinal x y ↔ dist x.1 x.2 y.1 y.2 = 1.
Proof.
  unfold cardinal, dist, DIJS. destruct x as [i j], y as [i' j']. simpl.
  rewrite !elem_of_cons, elem_of_nil. split.
  - intros [H|[H|[H|[H|[]]]]]; injection H as H1 H2; lia.
  - intros H.
    destruct (decide (i' - i = -1)); [left; f_equal; lia|].
    destruct (decide (j' - j = 1)); [right; left; f_equal; lia|].
    destruct (decide (i' - i = 1)); [do 2 right; left; f_equal; lia|].
    do 3 right. left. f_equal; lia.
Qed.

(** X1: [dist] is a metric on cells: it is never negative, symmetric,
    zero exactly between a cell and itself, and obeys the triangle
    inequality. *)
Theorem dist_metric (i1 j1 i2 j2 i3 j3 : Z) :
  0 ≤ dist i1 j1 i2 j2 ∧
  dist i1 j1 i2 j2 = dist i2 j2 i1 j1 ∧
  (dist i1 j1 i2 j2 = 0 ↔ i1 = i2 ∧ j1 = j2) ∧
  dist i1 j1 i3 j3 ≤ dist i1 j1 i2 j2 + dist i2 j2 i3 j3.
Proof. unfold dist. lia. Qed.

(** X2: the neighbours that [good_neighbors] yields for a cell are exactly
    the cells at distance 1 from it that lie in the grid and have no strand
    index; there are at most four, all different. *)
Theorem good_neighbors_distance (s : DifficultySettings) (st : builder)
    (x : cell) :
  (∀ n, n ∈ good_neighbors s st x ↔
        dist x.1 x.2 n.1 n.2 = 1 ∧
        (0 ≤ n.1 < r s ∧ 0 ≤ n.2 < c s) ∧
        strandi st !! n = None) ∧
  NoDup (good_neighbors s st x) ∧
  (length (good_neighbors s st x) ≤ 4)%nat.
Proof.
  split_and!.
  - intros n. rewrite good_neighbors_spec, cardinal_dist.
    destruct n as [i j]. by rewrite elem_of_grid.
  - unfold good_neighbors. apply NoDup_filter.
    apply NoDup_fmap_2_strong.
    + intros [a b] [a' b'] _ _ Heq. injection Heq as H1 H2. f_equal; lia.
    + unfold DIJS. repeat (apply NoDup_cons; split;
        [rewrite ?elem_of_cons, elem_of_nil; intuition congruence|]).
      apply NoDup_nil_2.
  - unfold good_neighbors.
    etrans; [apply length_filter|]. by rewrite length_fmap.
Qed.

Section more_random.
Context {G : Type} `{!Random G}.

(** X3: [randpop] raises [ValueError] on an empty list; on any other list
    it returns the element at the drawn index together with the list
    without one occurrence of it. *)
Theorem randpop_removes_one {A} (l : list A) (g : G) :
  (l = [] → randpop l g = Raise ValueError) ∧
  (l ≠ [] →
   ∃ x l', randpop l g = Ok (x, l', (randbelow (length l) g).2) ∧
     l !! (randbelow (length l) g).1 = Some x ∧
     l ≡ₚ x :: l' ∧ length l = S (length l')).
Proof.
  split; [by intros ->|]. intros Hne.
  destruct (randpop_Ok l g Hne) as (x & l' & g' & Hpop).
  pose proof (randpop_perm _ _ _ _ _ Hpop) as Hperm.
  exists x, l'. split_and!; [| |done|by rewrite Hperm].
  - rewrite Hpop. do 2 f_equal.
    unfold randpop, randrange in Hpop. destruct l; [done|].
    destruct (decide _); [|done]. simpl in Hpop.
    destruct (randbelow _ g). simpl in *.
    apply bind_Ok in Hpop as (? & _ & Hpop). by simplify_eq.
  - unfold randpop, randrange in Hpop. destruct l; [done|].
    destruct (decide _); [|done]. simpl in Hpop.
    destruct (randbelow _ g). simpl in *.
    apply bind_Ok in Hpop as (? & Hx%getitem_Ok & Hpop). by simplify_eq.
Qed.

(** X4: [shuffled] returns a permutation of the sequence it is given, so
    the same elements and the same length. *)
Theorem shuffled_permutes {A} (l : list A) (g : G) :
  (shuffled l g).1 ≡ₚ l ∧
  length (shuffled l g).1 = length l ∧
  ∀ x, x ∈ (shuffled l g).1 ↔ x ∈ l.
Proof.
  pose proof (shuffled_perm l g) as Hp.
  split_and!; [done|by rewrite Hp|]. intros x. by rewrite Hp.
Qed.

Lemma trim_too_many n : ∀ (q : list cell) (g : G),
  (length q < n)%nat → trim n q g = Raise IndexError.
Proof.
  induction n as [|n IH]; intros q g Hn; [lia|].
  rewrite trim_S.
  destruct (randrange_Ok 2 g) as (b & g1 & -> & _); [lia|]. simpl.
  destruct q as [|q0 q]; [by destruct (decide _)|].
  destruct (decide _).
  - simpl. apply IH. simpl in Hn. lia.
  - change (trim n (removelast (q0 :: q)) g1 = Raise IndexError).
    apply IH. rewrite length_removelast'. simpl in *. lia.
Qed.

(** X5: [trim] with [n] units succeeds exactly when the sequence has at
    least [n] cells; it then leaves a run of consecutive cells, [n] cells
    shorter; with fewer cells a pop from the empty deque raises
    [IndexError]. *)
Theorem trim_bounds (n : nat) (q : list cell) (g : G) :
  ((n ≤ length q)%nat →
   ∃ path g', trim n q g = Ok (path, g') ∧ segment path q ∧
     (length path + n)%nat = length q) ∧
  ((length q < n)%nat → trim n q g = Raise IndexError).
Proof. split; [apply trim_segment|apply trim_too_many]. Qed.

Lemma ends_missing (adj : gmap cell (list cell)) (strand : list cell) :
  Exists (λ x, adj !! x = None) strand → ends adj strand = Raise KeyError.
Proof.
  induction strand as [|x strand IH]; intros Hex; [by inversion Hex|].
  simpl. destruct (adj !! x) as [ax|] eqn:Hx; [|done]. simpl.
  apply Exists_cons in Hex as [?|Hex]; [congruence|].
  by rewrite IH.
Qed.

(** X6: [cleanse] raises [KeyError] when a cell of the strand is not a key
    of [adj], and [ValueError] when all cells are keys and the number of
    cells with exactly one neighbour is not two. *)
Theorem cleanse_rejects (fuel : nat) (s : DifficultySettings)
    (adj : gmap cell (list cell)) (strand : list cell) (g : G) :
  (Exists (λ x, adj !! x = None) strand →
   cleanse fuel s adj strand g = Raise KeyError) ∧
  (Forall (λ x, is_Some (adj !! x)) strand →
   length (filter (λ x, degree adj x = 1%nat) strand) ≠ 2%nat →
   cleanse fuel s adj strand g = Raise ValueError).
Proof.
  split.
  - intros Hex. unfold cleanse. by rewrite ends_missing.
  - intros Hall Hlen. unfold cleanse. rewrite ends_filter.
    2: { by apply Forall_forall. }
    simpl. by destruct (filter _ strand) as [|? [|? [|??]]].
Qed.
End more_random.

Lemma foldl_plant_adj l : ∀ st, adj (foldl plant st l) = adj st.
Proof. induction l as [|x l IH]; intros st; simpl; [done|]. by rewrite IH. Qed.

Lemma attach_adj_symmetric st x n st' :
  attach st x n = Ok st' → adj_symmetric (adj st) → adj_symmetric (adj st').
Proof.
  unfold attach. intros Hat Hsym.
  apply bind_Ok in Hat as (ax & Hax%getitem_Ok & Hat).
  apply bind_Ok in Hat as (an & Han%getitem_Ok & Hat).
  apply bind_Ok in Hat as (k & _ & Hat).
  apply bind_Ok in Hat as (strand & _ & Hat). injection Hat as <-. simpl.
  intros a b na Ha Hb.
  (* the lists after the two appends *)
  assert (∀ z nz, <[n:=an ++ [x]]> (<[x:=ax ++ [n]]> (adj st)) !! z = Some nz →
            ∃ oz, (oz = nz ∨ (z = x ∧ nz = oz ++ [n]) ∨ (z = n ∧ nz = oz ++ [x])
                   ∨ (z = x ∧ z = n ∧ nz = (oz ++ [n]) ++ [x])) ∧
                  adj st !! z = Some oz) as Hshape.
  { intros z nz Hz.
    apply lookup_insert_Some in Hz as [[<- <-]|[Hnz Hz]].
    - rewrite lookup_insert in Han. destruct (decide (x = n)) as [->|].
      + simplify_eq. exists ax. split; [|done]. do 3 right. done.
      + exists an. split; [|done]. right. right. left. done.
    - apply lookup_insert_Some in Hz as [[<- <-]|[Hxz Hz]].
      + exists ax. split; [|done]. right. left. done.
      + exists nz. split; [by left|done]. }
  assert (∀ z oz, adj st !! z = Some oz →
            ∃ nz, <[n:=an ++ [x]]> (<[x:=ax ++ [n]]> (adj st)) !! z = Some nz ∧
                  ∀ w, w ∈ oz → w ∈ nz) as Hgrow.
  { intros z oz Hz. destruct (decide (n = z)) as [<-|Hnz].
    - rewrite lookup_insert_eq. eexists. split; [done|].
      intros w Hw. rewrite lookup_insert in Han.
      destruct (decide (x = n)) as [->|]; simplify_eq;
        rewrite !elem_of_app; auto.
    - rewrite lookup_insert_ne by done.
      destruct (decide (x = z)) as [<-|Hxz].
      + rewrite lookup_insert_eq. eexists. split; [done|].
        intros w Hw. simplify_eq. rewrite elem_of_app. auto.
      + rewrite lookup_insert_ne by done. eauto. }
  assert (∃ nx, <[n:=an ++ [x]]> (<[x:=ax ++ [n]]> (adj st)) !! x = Some nx ∧
                n ∈ nx) as Hxn.
  { destruct (decide (n = x)) as [->|Hne].
    - rewrite lookup_insert_eq. eexists. split; [done|].
      rewrite elem_of_app. right. left.
    - rewrite lookup_insert_ne, lookup_insert_eq by done.
      eexists. split; [done|]. rewrite elem_of_app. right. left. }
  assert (∃ nn, <[n:=an ++ [x]]> (<[x:=ax ++ [n]]> (adj st)) !! n = Some nn ∧
                x ∈ nn) as Hnx.
  { rewrite lookup_insert_eq. eexists. split; [done|].
    rewrite elem_of_app. right. left. }
  destruct (Hshape a na Ha) as (oa & Hcase & Hoa).
  assert (b ∈ oa ∨ (a = x ∧ b = n) ∨ (a = n ∧ b = x)) as [Hin|[[-> ->] | [-> ->]]].
  { destruct Hcase as [-> | [[-> ->] | [[-> ->]| (-> & Heq & ->)]]];
      try subst n.
    - by left.
    - apply elem_of_app in Hb as [? | ->%list_elem_of_singleton]; auto.
    - apply elem_of_app in Hb as [? | ->%list_elem_of_singleton]; auto.
    - apply elem_of_app in Hb as [Hb | ->%list_elem_of_singleton]; [|auto].
      apply elem_of_app in Hb as [? | ->%list_elem_of_singleton]; auto. }
  - destruct (Hsym a b oa Hoa Hin) as (ob & Hob & Hab).
    destruct (Hgrow b ob Hob) as (nb & Hnb & Hsub). eauto.
  - exact Hnx.
  - exact Hxn.
Qed.

Section more_builder.
Context {G : Type} `{!Random G}.

Lemma grow_step_adj_symmetric s st seeds (g : G) st' seeds' g' :
  grow_step s st seeds g = Ok (st', seeds', g') →
  adj_symmetric (adj st) → adj_symmetric (adj st').
Proof.
  unfold grow_step. intros Hstep Hsym.
  apply bind_Ok in Hstep as ([[x seeds1] g1] & _ & Hstep).
  destruct (decide _); [|done].
  destruct (good_neighbors s st x) as [|n0 ns]; [by simplify_eq|].
  apply bind_Ok in Hstep as ([n g2] & _ & Hstep).
  apply bind_Ok in Hstep as (st1 & Hat & Hstep). simplify_eq.
  by eapply attach_adj_symmetric.
Qed.

Lemma step_adj_symmetric s x y :
  step (G:=G) s x y → adj_symmetric (adj x.1) → adj_symmetric (adj y.1).
Proof.
  destruct 1 as [st g l g1 Hlt Hsh|st old seeds g st' seeds' g' Hstep|st old];
    simpl.
  - by rewrite foldl_plant_adj.
  - by eapply grow_step_adj_symmetric.
  - done.
Qed.

Lemma steps_adj_symmetric s x y :
  rtc (step (G:=G) s) x y → adj_symmetric (adj x.1) → adj_symmetric (adj y.1).
Proof.
  induction 1 as [|x y z Hstep _ IH]; [done|].
  intros Hx. apply IH. by eapply step_adj_symmetric.
Qed.

(** X7: the edges that the strand builder enters into [adj] go both ways:
    when the loop ends, a cell listed among the neighbours of another one
    lists that one among its own, and no cell is its own neighbour. *)
Theorem build_adj_symmetric (fuel : nat) (s : DifficultySettings) (g : G)
    (st : builder) (g' : G) :
  build fuel s (init s) g = Ok (st, g') →
  ∀ x y nx, adj st !! x = Some nx → y ∈ nx →
    x ≠ y ∧ ∃ ny, adj st !! y = Some ny ∧ x ∈ ny.
Proof.
  intros Hb x y nx Hx Hy. split.
  - destruct (build_preserves _ _ _ _ _ _ (settled_init s) Hb) as ([Hinv _] & _).
    pose proof (inv_edges _ _ _ _ Hinv x nx y Hx Hy) as Hc.
    apply cardinal_dist in Hc. intros <-. unfold dist in Hc. lia.
  - apply build_steps in Hb.
    eapply (steps_adj_symmetric s _ _ Hb); [|done..].
    intros a b na Ha Hb'. change (adj (init s) !! a = Some na) in Ha.
    rewrite init_adj_lookup in Ha.
    destruct (decide _); [|done]. simplify_eq. by apply elem_of_nil in Hb'.
Qed.

(** X8: when the strand-building loop ends, the strands that are kept have
    two or more cells each, share no cell, lie in the grid, and every
    neighbour of a cell of a strand is a cell of the same strand. *)
Theorem build_strands_partition (fuel : nat) (s : DifficultySettings)
    (g : G) (st : builder) (g' : G) :
  build fuel s (init s) g = Ok (st, g') →
  NoDup (concat (strands st)) ∧
  ∀ strand, strand ∈ strands st →
    (2 ≤ length strand)%nat ∧
    ∀ x, x ∈ strand →
      (0 ≤ x.1 < r s ∧ 0 ≤ x.2 < c s) ∧
      ∃ nx, adj st !! x = Some nx ∧ ∀ y, y ∈ nx → y ∈ strand.
Proof.
  intros Hb.
  destruct (build_preserves _ _ _ _ _ _ (settled_init s) Hb) as (Hst & _).
  pose proof Hst as [Hinv Hlen]. split; [apply (inv_disjoint _ _ _ _ Hinv)|].
  intros strand Hin. rewrite Forall_forall in Hlen.
  split; [specialize (Hlen _ Hin); lia|]. intros x Hx.
  destruct (inv_strands _ _ _ _ Hinv strand Hin) as (_ & (p & Hp & Hpg) & Has).
  split.
  { destruct x as [i j]. apply elem_of_grid.
    by apply (inv_strandi_dom _ _ _ _ Hinv), Has. }
  rewrite <- Hp in Hx. apply list_elem_of_split in Hx as (l1 & l2 & ->).
  destruct Hpg as [_ Hadj]. destruct (Hadj l1 x l2 eq_refl) as (nb & Hnb & Hperm).
  exists nb. split; [done|]. intros y Hy. rewrite Hperm in Hy.
  rewrite <- Hp. unfold nbrs in Hy.
  apply elem_of_app in Hy as [Hy|Hy].
  - revert Hy. destruct (@last cell l1) as [z|] eqn:Hl; simpl; intros Hy;
      [|by apply elem_of_nil in Hy].
    apply list_elem_of_singleton in Hy as ->.
    apply elem_of_app. left. by apply last_Some_elem_of.
  - destruct l2 as [|z l2]; simpl in Hy; [by apply elem_of_nil in Hy|].
    apply list_elem_of_singleton in Hy as ->.
    apply elem_of_app. right. right. left.
Qed.

Lemma build_stuck (s : DifficultySettings) fuel : ∀ st (g : G),
  strandi st = ∅ → 0 < r s * c s →
  endcl s = 0 ∨ (r s < 0 ∧ c s < 0) →
  build fuel s st g = OutOfFuel.
Proof.
  induction fuel as [|fuel IH]; intros st g Hst Hpos Hcase; simpl;
    rewrite Hst, map_size_empty; (destruct (decide _) as [_|?]; [|lia]);
    [done|].
  unfold round.
  pose proof (shuffled_perm
    (filter (λ x, strandi st !! x = None) (grid s)) g) as Hperm.
  destruct (shuffled _ g) as [l g1]. simpl in Hperm.
  assert (slice_to (endcl s) l = []) as ->.
  { destruct Hcase as [He | [Hr Hc]]; [by rewrite He|].
    assert (grid s = []) as Hgrid.
    { unfold grid, range. by rewrite (seqZ_nil 0 (r s)) by lia. }
    rewrite Hgrid in Hperm. apply Permutation_nil_r in Hperm as ->.
    unfold slice_to. destruct (decide _); apply take_nil. }
  simpl. assert (grow fuel s st [] g1 = Ok (st, g1)) as ->
    by (by destruct fuel).
  simpl. by apply IH.
Qed.

(** X9: with cells to assign ([r * c > 0]) and no cell to pick as a seed,
    because [endcl] is 0 or because both sides are negative, the
    strand-building loop never ends, whatever the random source. *)
Theorem build_never_ends_without_seeds (fuel : nat) (s : DifficultySettings)
    (g : G) :
  0 < r s * c s → endcl s = 0 ∨ (r s < 0 ∧ c s < 0) →
  build fuel s (init s) g = OutOfFuel ∧
  _try_generating_paths fuel s g = OutOfFuel.
Proof.
  intros Hpos Hcase.
  assert (build fuel s (init s) g = OutOfFuel) as Hb
    by (by apply build_stuck).
  split; [done|]. unfold _try_generating_paths. by rewrite Hb.
Qed.


Lemma cleanse_length (fuel : nat) (s : DifficultySettings)
    (adj : gmap cell (list cell)) strand p (g : G)
    path g' :
  p ≡ₚ strand → path_graph adj p → (2 ≤ length p)%nat →
  cleanse fuel s adj strand g = Ok (path, g') →
  (length path ≤ length strand ≤ length path + 2)%nat.
Proof.
  intros Hperm Hp Hlen Hc.
  destruct (cleanse_spec (fuel `max` length p) s adj strand p g)
    as (q & a & t & g1 & path' & g'' & Hq & _ & Ht & _ & Hc' & _ & Hl);
    [done|done|done|lia|].
  rewrite (cleanse_mono s adj fuel (fuel `max` length p) strand g _
    ltac:(lia) Hc) in Hc'. simplify_eq.
  destruct (trim_count_Ok s (a :: q) g) as (t' & g1' & Ht' & Hle & _).
  rewrite Ht in Ht'. simplify_eq.
  assert (length q = length strand) as Hlq.
  { rewrite <- Hperm. destruct Hq as [-> | ->]; [done|apply length_reverse]. }
  unfold trim_bound in Hle. lia.
Qed.

Lemma cleanse_all_lengths (fuel : nat) (s : DifficultySettings)
    (adj : gmap cell (list cell)) :
  ∀ sel (g : G) paths g',
  Forall (λ strand, ∃ p, p ≡ₚ strand ∧ path_graph adj p ∧
                         (2 ≤ length p)%nat) sel →
  cleanse_all fuel s adj sel g = Ok (paths, g') →
  Forall2 (λ path strand,
    (length path ≤ length strand ≤ length path + 2)%nat) paths sel.
Proof.
  induction sel as [|strand sel IH]; intros g paths g' Hsel Hc.
  { simpl in Hc. simplify_eq. constructor. }
  apply Forall_cons in Hsel as [(p & Hperm & Hp & Hlen) Hsel].
  simpl in Hc. apply bind_Ok in Hc as ([path g1] & Hcl & Hc).
  apply bind_Ok in Hc as ([rest g2] & Hall & Hc). simplify_eq.
  constructor; [by eapply cleanse_length|by eapply IH].
Qed.

(** X10: every path of an attempt is made of cells of one strand of the
    builder's final state and leaves out at most two of them. *)
Theorem attempt_path_keeps_strand (fuel : nat) (s : DifficultySettings)
    (g : G) (paths : list (list cell)) (g' : G) :
  _try_generating_paths fuel s g = Ok (paths, g') →
  ∃ st g1,
    build fuel s (init s) g = Ok (st, g1) ∧
    ∀ path, path ∈ paths →
      ∃ strand, strand ∈ strands st ∧
        path ⊆+ strand ∧
        (length path ≤ length strand ≤ length path + 2)%nat.
Proof.
  intros (st & g1 & ss & g2 & sel & cp & g3 & Hb & Hst & _ & Hsh & Hendcl
          & Hsel & Hall & Hcl & Hpaths)%try_generating_paths_spec.
  pose proof (shuffle_perm (strands st) g1) as Hperm.
  rewrite Hsh in Hperm. simpl in Hperm.
  pose proof (shuffled_perm cp g3) as Hperm'.
  rewrite Hpaths in Hperm'. simpl in Hperm'.
  assert (∀ strand, strand ∈ sel → strand ∈ strands st) as Hsub.
  { intros strand Hin. rewrite Hsel in Hin.
    apply elem_of_take in Hin as (i & Hin & _).
    apply list_elem_of_lookup_2 in Hin.
    by rewrite sort_desc_perm, Hperm in Hin. }
  assert (Forall2 (λ path strand,
    (length path ≤ length strand ≤ length path + 2)%nat) cp sel) as Hlens.
  { eapply cleanse_all_lengths; [|done].
    apply Forall_forall. intros strand Hin.
    apply (settled_strands s); auto. }
  exists st, g1. split; [done|]. intros path Hin. rewrite Hperm' in Hin.
  apply list_elem_of_lookup in Hin as [i Hi].
  destruct (Forall2_lookup_l _ _ _ _ _ Hcl Hi) as (strand & Hs & Hc).
  destruct (Forall2_lookup_l _ _ _ _ _ Hlens Hi) as (strand' & Hs' & Hl).
  simplify_eq. exists strand.
  split; [apply Hsub; by eapply list_elem_of_lookup_2|].
  split; [by eapply cleansed_submseteq|done].
Qed.
End more_builder.

Lemma chain_dist (path : list cell) : ∀ a b,
  (∀ l1 x y l2, path = l1 ++ x :: y :: l2 → cardinal x y) →
  head path = Some a → last path = Some b →
  dist a.1 a.2 b.1 b.2 ≤ Z.of_nat (length path) - 1.
Proof.
  induction path as [|x path IH]; intros a b Hchain Ha Hb; [done|].
  simpl in Ha. simplify_eq. destruct path as [|y path].
  { simpl in Hb. simplify_eq. unfold dist. simpl. lia. }
  pose proof (Hchain [] a y path eq_refl) as Hay%cardinal_dist.
  rewrite last_cons_cons in Hb.
  specialize (IH y b). simpl length in *.
  assert (dist y.1 y.2 b.1 b.2 ≤ Z.of_nat (S (length path)) - 1) as Hyb.
  { apply IH; [|done..]. intros l1 u v l2 Heq.
    apply (Hchain (a :: l1) u v l2). by rewrite Heq. }
  unfold dist in *. lia.
Qed.

Section more_search.
Context {G : Type} `{!Random G} {F : Type} `{!Float F}.

(** X11: with [attemptc <= 0], [generate_paths] raises [ValueError]: a
    negative count is refused by [islice], and with a count of 0 [max] is
    given no attempt at all. *)
Theorem generate_paths_needs_attempts (fuel : nat) (s : DifficultySettings)
    (g : G) :
  attemptc s ≤ 0 → generate_paths (F:=F) fuel s g = Raise ValueError.
Proof.
  intros Hn. unfold generate_paths, islice_check.
  destruct (decide (0 ≤ attemptc s)); [|done].
  by replace (attemptc s) with 0 by lia.
Qed.

(** X12: [generate_paths] returns only for settings with [attemptc >= 1]
    and [endcl >= 0] whose grid either has no cell to assign
    ([r * c <= 0]) or has positive sides and [endcl >= 1]. *)
Theorem generate_paths_returns_only_if (fuel : nat) (s : DifficultySettings)
    (g : G) (paths : list (list cell)) (g' : G) :
  generate_paths (F:=F) fuel s g = Ok (paths, g') →
  1 ≤ attemptc s ∧ 0 ≤ endcl s ∧
  (r s * c s ≤ 0 ∨ (1 ≤ r s ∧ 1 ≤ c s ∧ 1 ≤ endcl s)).
Proof.
  intros Hg.
  destruct (generate_paths_spec _ _ _ _ _ Hg) as (_ & Hn & _).
  destruct (generate_paths_attempt _ _ _ _ _ Hg)
    as (_ & fuel0 & g0 & g1 & Htry).
  destruct (try_generating_paths_spec _ _ _ _ _ Htry)
    as (st & g2 & _ & _ & _ & _ & _ & Hb & _ & _ & _ & Hendcl & _).
  split_and!; [done..|].
  destruct (decide (r s * c s ≤ 0)) as [|Hpos]; [by left|right].
  destruct (decide (endcl s = 0 ∨ (r s < 0 ∧ c s < 0))) as [Hcase|Hcase].
  { rewrite (build_stuck s fuel0 (init s) g0) in Hb; [done|done|lia|done]. }
  assert (endcl s ≠ 0) by tauto.
  destruct (decide (r s < 0)), (decide (c s < 0)); [tauto|nia..].
Qed.


(** X14: a path returned by [generate_paths] is not empty, has at least
    [pathl] cells, and the distance between its two ends is at least
    [distl] and less than its number of cells. *)
Theorem generate_paths_path_lengths (fuel : nat) (s : DifficultySettings)
    (g : G) (paths : list (list cell)) (g' : G) :
  generate_paths (F:=F) fuel s g = Ok (paths, g') →
  ∀ path, path ∈ paths →
    ∃ a b, head path = Some a ∧ last path = Some b ∧
      pathl s ≤ Z.of_nat (length path) ∧
      distl s ≤ dist a.1 a.2 b.1 b.2 ∧
      dist a.1 a.2 b.1 b.2 < Z.of_nat (length path).
Proof.
  intros Hg path Hin.
  destruct (generate_paths_attempt _ _ _ _ _ Hg)
    as (Hok & fuel0 & g0 & g1 & Htry).
  apply acceptable_true in Hok. rewrite Forall_forall in Hok.
  destruct (Hok path Hin) as (Hlen & a & b & Ha & Hb & Hd).
  destruct (try_generating_paths_paths _ _ _ _ _ Htry)
    as (_ & _ & st & Hst & Hpaths).
  destruct (Hpaths path Hin) as (strand & Hs & Hcl).
  destruct (cleansed_path s st path strand Hst Hs Hcl) as (_ & _ & Hchain).
  exists a, b. split_and!; try done.
  pose proof (chain_dist path a b Hchain Ha Hb). unfold cell in *. lia.
Qed.
(** X15: the paths returned by [generate_paths] hold, all together, no
    more cells than the grid has. *)
Theorem generate_paths_cells_bound (fuel : nat) (s : DifficultySettings)
    (g : G) (paths : list (list cell)) (g' : G) :
  generate_paths (F:=F) fuel s g = Ok (paths, g') →
  (length (concat paths) ≤ Z.to_nat (r s) * Z.to_nat (c s))%nat.
Proof.
  intros Hg.
  destruct (generate_paths_attempt _ _ _ _ _ Hg)
    as (_ & fuel0 & g0 & g1 & Htry).
  destruct (try_generating_paths_paths _ _ _ _ _ Htry)
    as (_ & Hnd & st & Hst & Hpaths).
  rewrite <- length_grid. apply submseteq_length.
  apply NoDup_submseteq; [done|].
  intros x (path & Hin & Hx)%elem_of_concat.
  destruct (Hpaths path Hin) as (strand & Hs & Hcl).
  by apply (cleansed_path s st path strand Hst Hs Hcl).
Qed.
End more_search.

(** * Properties of the pipe renderer *)

Lemma ccw_unfold {T} `{EqDecision T} fuel (seq1 seq2 : list T) :
  _ccw fuel seq1 seq2 =
  if decide (seq1 = seq2) then Ok 0%nat
  else
    match fuel with
    | O => OutOfFuel
    | S fuel => k ← _ccw fuel seq1 (rotate_left seq2); Ok (1 + k)%nat
    end.
Proof. by destruct fuel. Qed.

Lemma ccw_sound {T} `{EqDecision T} (seq1 : list T) fuel : ∀ seq2 k,
  _ccw fuel seq1 seq2 = Ok k →
  Nat.iter k rotate_left seq2 = seq1 ∧
  ∀ j, (j < k)%nat → Nat.iter j rotate_left seq2 ≠ seq1.
Proof.
  induction fuel as [|fuel IH]; intros seq2 k Hc; rewrite ccw_unfold in Hc;
    (destruct (decide (seq1 = seq2)) as [->|Hne];
      [simplify_eq; split; [done|intros; lia]|]); [done|].
  apply bind_Ok in Hc as (k' & Hk' & Hc). simplify_eq.
  destruct (IH _ _ Hk') as [Hit Hleast]. split.
  - by rewrite Nat.iter_succ_r.
  - intros [|j] Hj; [by intros <-|].
    rewrite Nat.iter_succ_r. apply Hleast. lia.
Qed.

Lemma ccw_complete {T} `{EqDecision T} (seq1 : list T) k : ∀ seq2 fuel,
  Nat.iter k rotate_left seq2 = seq1 →
  (∀ j, (j < k)%nat → Nat.iter j rotate_left seq2 ≠ seq1) →
  (k ≤ fuel)%nat → _ccw fuel seq1 seq2 = Ok k.
Proof.
  induction k as [|k IH]; intros seq2 fuel Hit Hleast Hfuel;
    rewrite ccw_unfold.
  { simpl in Hit. by rewrite decide_True. }
  rewrite decide_False by (intros ->; by apply (Hleast 0%nat); [lia|]).
  destruct fuel as [|fuel]; [lia|].
  rewrite (IH (rotate_left seq2) fuel); [done| | |lia].
  - by rewrite <- Nat.iter_succ_r.
  - intros j Hj. rewrite <- Nat.iter_succ_r. apply Hleast. lia.
Qed.

Lemma ccw_diverges {T} `{EqDecision T} (seq1 : list T) fuel : ∀ seq2,
  (∀ j, Nat.iter j rotate_left seq2 ≠ seq1) →
  _ccw fuel seq1 seq2 = OutOfFuel.
Proof.
  induction fuel as [|fuel IH]; intros seq2 Hno; rewrite ccw_unfold;
    (rewrite decide_False by (intros ->; by apply (Hno 0%nat))); [done|].
  rewrite IH; [done|]. intros j. rewrite <- Nat.iter_succ_r. apply Hno.
Qed.

(** X16: [_ccw(seq1, seq2)] returns the least number of left rotations
    that turn [seq2] into [seq1]; a recursion depth of that number is
    enough; and when no rotation of [seq2] equals [seq1] the recursion
    never returns. *)
Theorem ccw_counts_rotations {T} `{EqDecision T} (seq1 seq2 : list T) :
  (∀ fuel k,
     _ccw fuel seq1 seq2 = Ok k →
     Nat.iter k rotate_left seq2 = seq1 ∧
     ∀ j, (j < k)%nat → Nat.iter j rotate_left seq2 ≠ seq1) ∧
  (∀ fuel k,
     Nat.iter k rotate_left seq2 = seq1 →
     (∀ j, (j < k)%nat → Nat.iter j rotate_left seq2 ≠ seq1) →
     (k ≤ fuel)%nat → _ccw fuel seq1 seq2 = Ok k) ∧
  ((∀ j, Nat.iter j rotate_left seq2 ≠ seq1) →
   ∀ fuel, _ccw fuel seq1 seq2 = OutOfFuel).
Proof.
  split_and!.
  - intros fuel k. apply ccw_sound.
  - intros fuel k. apply ccw_complete.
  - intros Hno fuel. by apply ccw_diverges.
Qed.

Lemma ccw_mono {T} `{EqDecision T} (seq1 : list T) fuel : ∀ fuel' seq2 k,
  (fuel ≤ fuel')%nat → _ccw fuel seq1 seq2 = Ok k →
  _ccw fuel' seq1 seq2 = Ok k.
Proof.
  induction fuel as [|fuel IH]; intros fuel' seq2 k Hle Hc;
    rewrite ccw_unfold in Hc |- *;
    (destruct (decide (seq1 = seq2)); [done|]); [done|].
  destruct fuel' as [|fuel']; [lia|].
  apply bind_Ok in Hc as (k' & Hk' & Hc).
  by rewrite (IH fuel' _ _ ltac:(lia) Hk').
Qed.

Lemma pipe_tile_mono fuel fuel' t base dirs res :
  (fuel ≤ fuel')%nat → pipe_tile fuel t base dirs = Ok res →
  pipe_tile fuel' t base dirs = Ok res.
Proof.
  intros Hle. unfold pipe_tile.
  intros (tx & Htx & Hp)%bind_Ok. rewrite Htx. simpl.
  apply bind_Ok in Hp as (xs & Hxs & Hp). rewrite Hxs. simpl.
  apply bind_Ok in Hp as (ty & Hty & Hp).
  by rewrite (ccw_mono _ _ _ _ _ Hle Hty).
Qed.

Lemma fill_unfold fuel xo xb xc0 xc1 xc2 xc3 t :
  fill fuel xo xb xc0 xc1 xc2 xc3 t =
  if decide (_xoff t !! [xc0; xc1; xc2; xc3] = None) then
    match fuel with
    | O => OutOfFuel
    | S fuel =>
      fill fuel xo xb xc3 xc0 xc1 xc2
        {| _xoff := <[[xc0; xc1; xc2; xc3] := xo]> (_xoff t);
           _xstart := <[[xc0; xc1; xc2; xc3] := xb]> (_xstart t) |}
    end
  else Ok t.
Proof. by destruct fuel. Qed.

Lemma fill_mono xo xb fuel : ∀ fuel' xc0 xc1 xc2 xc3 t res,
  (fuel ≤ fuel')%nat → fill fuel xo xb xc0 xc1 xc2 xc3 t = Ok res →
  fill fuel' xo xb xc0 xc1 xc2 xc3 t = Ok res.
Proof.
  induction fuel as [|fuel IH]; intros fuel' xc0 xc1 xc2 xc3 t res Hle Hf;
    rewrite fill_unfold in Hf |- *;
    (destruct (decide _); [|done]); [done|].
  destruct fuel' as [|fuel']; [lia|]. apply IH; [lia|done].
Qed.

Lemma fill_all_mono fuel fuel' : ∀ entries t res,
  (fuel ≤ fuel')%nat → fill_all fuel entries t = Ok res →
  fill_all fuel' entries t = Ok res.
Proof.
  induction entries as [|[xo xb] entries IH]; intros t res Hle Hf; [done|].
  simpl in *. apply bind_Ok in Hf as ([[[xc0 xc1] xc2] xc3] & Hu & Hf).
  rewrite Hu. simpl. apply bind_Ok in Hf as (t1 & Hfill & Hf).
  rewrite (fill_mono _ _ _ _ _ _ _ _ _ _ Hle Hfill). simpl. by apply IH.
Qed.

Lemma make_tables_Ok fuel : (4 ≤ fuel)%nat → make_tables fuel = Ok pipe_tables.
Proof.
  intros Hf. apply (fill_all_mono 4 fuel); [done|]. by vm_compute.
Qed.

Lemma make_tables_short fuel : (fuel < 4)%nat → make_tables fuel = OutOfFuel.
Proof.
  intros Hf. destruct fuel as [|[|[|[|fuel]]]]; try lia; vm_compute;
    reflexivity.
Qed.

Lemma make_tables_inv fuel t : make_tables fuel = Ok t → t = pipe_tables.
Proof.
  intros Ht. destruct (decide (fuel < 4)%nat).
  - by rewrite make_tables_short in Ht.
  - rewrite make_tables_Ok in Ht by lia. by simplify_eq.
Qed.

(** X17: the module-level loop needs four turns of its inner loop and then
    has filled both dictionaries for all sixteen combinations of the four
    flags: the column stored in [_xoff] is the one of the number and the
    arrangement of the openings, it is the same for flags that are
    rotations of one another, and [_xstart] stores one of the six base
    patterns, from which the flags are reached in at most three
    rotations. *)
Theorem tables_cover_flags (fuel : nat) :
  ((fuel < 4)%nat → make_tables fuel = OutOfFuel) ∧
  ((4 ≤ fuel)%nat →
   ∃ t, make_tables fuel = Ok t ∧
     size (_xoff t) = 16%nat ∧ size (_xstart t) = 16%nat ∧
     ∀ north east south west,
       let dirs := [north; east; south; west] in
       _xoff t !! dirs = Some (column_of north east south west) ∧
       _xoff t !! rotate_left dirs = _xoff t !! dirs ∧
       ∃ xb k,
         _xstart t !! dirs = Some xb ∧ xb ∈ sprites.*2 ∧
         (k ≤ 3)%nat ∧ ∀ depth, (3 ≤ depth)%nat → _ccw depth xb dirs = Ok k).
Proof.
  split; [apply make_tables_short|]. intros Hf.
  exists pipe_tables. split; [by apply make_tables_Ok|].
  split; [by vm_compute|]. split; [by vm_compute|].
  intros north east south west dirs. subst dirs.
  split; [by destruct north, east, south, west; vm_compute|].
  split; [by destruct north, east, south, west; vm_compute|].
  destruct north, east, south, west;
    lazymatch goal with
    | |- ∃ xb k, _ !! ?d = _ ∧ _ =>
      let xb := eval vm_compute in (default [] (_xstart pipe_tables !! d)) in
      let k := eval vm_compute in
        (match _ccw 3 xb d with Ok k => k | _ => 0%nat end) in
      exists xb, k
    end;
    (split_and!;
     [by vm_compute
     |apply list_elem_of_In; vm_compute; tauto
     |lia
     |intros depth Hd; apply (ccw_mono _ 3); [done|by vm_compute]]).
Qed.

(** X18: with the module's dictionaries [draw_pipe] raises [ValueError]
    exactly for an endpoint piece ([base]) whose number of openings is not
    one, after the palette reset and, for an active piece, the three
    palette swaps, which then stay in effect.  In every other case it makes
    one [blt] of the sprite in column [tx] (1 for an endpoint piece) and a
    row between 0 and 3 and resets the palette; it never fails on a missing
    key. *)
Theorem draw_pipe_outcome (fuel depth : nat) (t : tables) (x y : Z)
    (active north south east west base bg : bool) :
  make_tables fuel = Ok t → (3 ≤ depth)%nat →
  let swaps := if active then [Pal 5 3; Pal 6 7; Pal 12 11] else [] in
  if base && negb (bool_decide (openings north south east west = 1)) then
    draw_pipe depth t x y active north south east west base bg =
      (Pal_reset :: swaps, Raise ValueError)
  else
    ∃ ty, 0 ≤ ty ≤ 3 ∧
      draw_pipe depth t x y active north south east west base bg =
        (Pal_reset :: swaps ++
           [Blt x y 0
              (16 * (if base then 1 else column_of north east south west))
              (16 * ty) 16 16 (if bg then None else Some 0);
            Pal_reset],
         Ok ()).
Proof.
  intros ->%make_tables_inv Hd swaps. subst swaps.
  unfold draw_pipe.
  destruct (base && negb (bool_decide (openings north south east west = 1)))
    eqn:Hbase; [done|].
  assert (∃ ty : nat,
    (ty ≤ 3)%nat ∧
    pipe_tile depth pipe_tables base [north; east; south; west]
      = Ok (if base then 1 else column_of north east south west,
            Z.of_nat ty)) as (ty & Hty & ->).
  { clear Hbase.
    destruct north, east, south, west;
      lazymatch goal with
      | |- ∃ ty, _ ∧ pipe_tile _ _ _ ?d = _ =>
        let xb := eval vm_compute in (default [] (_xstart pipe_tables !! d)) in
        let k := eval vm_compute in
          (match _ccw 3 xb d with Ok k => k | _ => 0%nat end) in
        exists k
      end;
      (split; [lia|]); (apply (pipe_tile_mono 3 depth); [done|]);
      destruct base; vm_compute; reflexivity. }
  exists (Z.of_nat ty). split; [lia|]. reflexivity.
Qed.

(** ** The further properties on concrete runs *)

Lemma build_adj_symmetric_witness :
  build 7 row3 (init row3) row3_tape = Ok (row3_final, []) ∧
  ∀ x y nx, adj row3_final !! x = Some nx → y ∈ nx →
    x ≠ y ∧ ∃ ny, adj row3_final !! y = Some ny ∧ x ∈ ny.
Proof.
  assert (build 7 row3 (init row3) row3_tape = Ok (row3_final, [])) as Hrun
    by (vm_compute; reflexivity).
  split; [exact Hrun|].
  exact (build_adj_symmetric 7 row3 row3_tape row3_final [] Hrun).
Defined.

Lemma build_strands_partition_witness :
  build 7 row3 (init row3) row3_tape = Ok (row3_final, []) ∧
  NoDup (concat (strands row3_final)) ∧
  ∀ strand, strand ∈ strands row3_final →
    (2 ≤ length strand)%nat ∧
    ∀ x, x ∈ strand →
      (0 ≤ x.1 < r row3 ∧ 0 ≤ x.2 < c row3) ∧
      ∃ nx, adj row3_final !! x = Some nx ∧ ∀ y, y ∈ nx → y ∈ strand.
Proof.
  assert (build 7 row3 (init row3) row3_tape = Ok (row3_final, [])) as Hrun
    by (vm_compute; reflexivity).
  split; [exact Hrun|].
  exact (build_strands_partition 7 row3 row3_tape row3_final [] Hrun).
Defined.

Lemma build_never_ends_without_seeds_witness :
  build 5 seedless (init seedless) ([] : list nat) = OutOfFuel ∧
  _try_generating_paths 5 seedless ([] : list nat) = OutOfFuel.
Proof.
  apply (build_never_ends_without_seeds 5 seedless []).
  - vm_compute. reflexivity.
  - left. reflexivity.
Defined.

Lemma attempt_path_keeps_strand_witness :
  ∃ st g1,
    build 7 row3 (init row3) row3_tape = Ok (st, g1) ∧
    ∀ path, path ∈ [[(0, 2); (0, 1)]] →
      ∃ strand, strand ∈ strands st ∧
        path ⊆+ strand ∧
        (length path ≤ length strand ≤ length path + 2)%nat.
Proof.
  apply (attempt_path_keeps_strand 7 row3 row3_tape [[(0, 2); (0, 1)]] []).
  vm_compute. reflexivity.
Defined.

Lemma generate_paths_needs_attempts_witness :
  generate_paths (F:=Z) 9 no_attempts ([] : list nat) = Raise ValueError.
Proof.
  apply (generate_paths_needs_attempts (F:=Z) 9 no_attempts []).
  simpl. lia.
Defined.

Lemma generate_paths_returns_only_if_witness :
  1 ≤ attemptc trivial ∧ 0 ≤ endcl trivial ∧
  (r trivial * c trivial ≤ 0 ∨
   (1 ≤ r trivial ∧ 1 ≤ c trivial ∧ 1 ≤ endcl trivial)).
Proof.
  apply (generate_paths_returns_only_if (F:=Z) 60 trivial [] trivial_paths []).
  vm_compute. reflexivity.
Defined.


Lemma generate_paths_path_lengths_witness :
  generate_paths (F:=Z) 60 trivial ([] : list nat) = Ok (trivial_paths, []) ∧
  ∀ path, path ∈ trivial_paths →
    ∃ a b, head path = Some a ∧ last path = Some b ∧
      pathl trivial ≤ Z.of_nat (length path) ∧
      distl trivial ≤ dist a.1 a.2 b.1 b.2 ∧
      dist a.1 a.2 b.1 b.2 < Z.of_nat (length path).
Proof.
  assert (generate_paths (F:=Z) 60 trivial ([] : list nat)
          = Ok (trivial_paths, [])) as Hrun by (vm_compute; reflexivity).
  split; [exact Hrun|].
  exact (generate_paths_path_lengths (F:=Z) 60 trivial [] trivial_paths []
           Hrun).
Defined.

Lemma generate_paths_cells_bound_witness :
  (length (concat trivial_paths) ≤
     Z.to_nat (r trivial) * Z.to_nat (c trivial))%nat.
Proof.
  apply (generate_paths_cells_bound (F:=Z) 60 trivial [] trivial_paths []).
  vm_compute. reflexivity.
Defined.

Lemma draw_pipe_outcome_witness :
  ∃ ty, 0 ≤ ty ≤ 3 ∧
    draw_pipe 3 pipe_tables 32 48 true false true false true false false =
      ([Pal_reset; Pal 5 3; Pal 6 7; Pal 12 11;
        Blt 32 48 0 (16 * column_of false false true true) (16 * ty) 16 16
          (Some 0);
        Pal_reset],
       Ok ()).
Proof.
  apply (draw_pipe_outcome 4 3 pipe_tables 32 48
           true false true false true false false).
  - vm_compute. reflexivity.
  - lia.
Defined.
